(** * prime11: Mersenne-prime search — pipeline and bounded task queue

    A shallow embedding of [src/prime11.c].

    - C [unsigned long] values are integers of [Z] in [0, ULONG_MAX]; every
      [unsigned long] operation of the source is followed by its wrap-around
      ([wrap]).  [ULONG_MAX] comes from [<limits.h>] and is a parameter.
    - GMP's [mpz_t] values are integers of [Z] (arbitrary precision).  GMP's
      own limit on the size of an [mpz_t] is not modelled.  The variable [t]
      of [lucas_lehmer] is cleared at line 117 and used again at lines 125
      and 127: it has a state, holding an integer or cleared, and a GMP call
      on the cleared variable is an outcome of its own.
    - [mpz_probab_prime_p] is GMP's; it is a parameter, and each theorem
      states what it needs of it.
    - The queue's semaphores are counters; an operation that has to wait
      is a step that is not enabled. *)

From Stdlib Require Import ZArith Znumtheory List Bool Lia String Ascii.
From stdpp Require Import base list.

Local Open Scope Z_scope.

(** ** Arbitrary-precision operations used by the source *)

(** [mpz_divisible_p (n, d)]: non-zero iff [n] is exactly divisible by [d];
    only 0 is divisible by 0. *)
Definition mpz_divisible_p (n d : Z) : bool :=
  if d =? 0 then n =? 0 else n mod d =? 0.

(** [mpz_divisible_ui_p] is the same test with an [unsigned long] divisor. *)
Definition mpz_divisible_ui_p (n d : Z) : bool := mpz_divisible_p n d.

(** [mpz_tdiv_r_2exp] and [mpz_tdiv_q_2exp]: remainder and quotient of the
    division by [2^b] that rounds towards zero. *)
Definition mpz_tdiv_r_2exp (n b : Z) : Z := Z.rem n (2 ^ b).
Definition mpz_tdiv_q_2exp (n b : Z) : Z := Z.quot n (2 ^ b).

(** [mpz_sgn]. *)
Definition mpz_sgn (n : Z) : Z := Z.sgn n.

(** The Mersenne number [2^p - 1] ([mpz_setbit] on 0, then [mpz_sub_ui 1]). *)
Definition mersenne (p : Z) : Z := 2 ^ p - 1.

(** ** The state of a GMP variable

    Between [mpz_init] (or [mpz_init_set_ui]) and [mpz_clear] a variable
    holds an integer; after [mpz_clear] it holds none, and GMP defines no
    behaviour for a call that is given it. *)
Inductive mpz_t : Type :=
| Holds (n : Z)
| Cleared.

(** ** Outcomes of [lucas_lehmer]

    One constructor per [return] of the source, and three for the ways the
    function can fail to return a value. *)
Inductive Outcome : Type :=
| ReturnBase                 (* line 82: p == 2, return 1 *)
| ReturnExponent             (* line 88: p is not (probably) prime, return 0 *)
| ReturnSpecial              (* line 102: 2p+1 divides M_p, return 0 *)
| ReturnTrial (q : Z)        (* line 113: q divides M_p, return 0 *)
| ReturnLucasLehmer (V : Z)  (* line 133: return !mpz_sgn(V) *)
| DivideByZero               (* line 107: the divisor 2 * p is 0 *)
| UseAfterClear              (* line 125: t is used, line 117 has cleared it *)
| Hang.                      (* lines 122, 128: a loop that does not end *)

(** The [int] that the caller receives; none where the behaviour is
    undefined or the call does not end. *)
Definition return_value (o : Outcome) : option Z :=
  match o with
  | ReturnBase => Some 1
  | ReturnExponent | ReturnSpecial | ReturnTrial _ => Some 0
  | ReturnLucasLehmer V => Some (if mpz_sgn V =? 0 then 1 else 0)
  | DivideByZero | UseAfterClear | Hang => None
  end.

(** Whether line 118 ("Lucas-Lehmer is required") has been passed. *)
Definition reached_lucas_lehmer (o : Outcome) : bool :=
  match o with
  | ReturnLucasLehmer _ | UseAfterClear | Hang => true
  | _ => false
  end.

(** The variables [t] and [V] after iterations of the loop of lines
    122-129, or what has kept the loop from having them. *)
Inductive Loop : Type :=
| Goes (t : mpz_t) (V : Z)
| UsesCleared                (* line 125: [mpz_tdiv_r_2exp (t, V, p)], t cleared *)
| Unending.                  (* line 128: the [while] does not end *)

Section Pipeline.

(** [<limits.h>]: the largest [unsigned long]. *)
Variable ULONG_MAX : Z.

(** GMP: [mpz_probab_prime_p (n, reps)] is 0 when [n] is definitely not
    prime, 1 when it is probably prime, 2 when it is definitely prime. *)
Variable mpz_probab_prime_p : Z -> Z -> Z.

(** An [unsigned long] result is taken modulo [ULONG_MAX + 1]. *)
Definition wrap (x : Z) : Z := x mod (ULONG_MAX + 1).

(** Line 107:
    [tlim = p / 2 > (ULONG_MAX / (2 * p)) ? ULONG_MAX / (2 * p) : p / 2],
    with [2 * p] an [unsigned long] product. *)
Definition tlim (p : Z) : option Z :=
  let d := wrap (2 * p) in
  if d =? 0 then None
  else Some (if p / 2 >? ULONG_MAX / d then ULONG_MAX / d else p / 2).

(** Line 109: [q = 2 * p * k + 1]. *)
Definition trial_q (p k : Z) : Z := wrap (wrap (wrap (2 * p) * k) + 1).

(** Line 110: the condition under which the loop returns 0. *)
Definition trial_hit (mp q : Z) : bool :=
  ((q mod 8 =? 1) || (q mod 8 =? 7))
  && negb (q mod 3 =? 0) && negb (q mod 5 =? 0) && negb (q mod 7 =? 0)
  && mpz_divisible_ui_p mp q.

(** Lines 108-115: [for (k = ...; k < tlim; k++)], with [n] iterations
    left; the divisor found, if any. *)
Fixpoint trial_from (p mp : Z) (n : nat) (k : Z) : option Z :=
  match n with
  | O => None
  | S n' =>
      let q := trial_q p k in
      if trial_hit mp q then Some q else trial_from p mp n' (k + 1)
  end.

(** The loop starts at [k = 1] and runs while [k < tlim]. *)
Definition trial_division (p mp tl : Z) : option Z :=
  trial_from p mp (Z.to_nat (tl - 1)) 1.

(** Line 128: [while (mpz_cmp(V, mp) >= 0) mpz_sub(V, V, mp)], given
    [fuel] evaluations of the condition. *)
Fixpoint sub_while (fuel : nat) (mp V : Z) : option Z :=
  match fuel with
  | O => None
  | S fuel' => if V >=? mp then sub_while fuel' mp (V - mp) else Some V
  end.

(** For [mp > 0] the condition is evaluated [V / mp + 1] times at most;
    for [mp <= 0] the loop may not end, which is [None]. *)
Definition reduce (mp V : Z) : option Z :=
  sub_while (S (Z.to_nat (V / mp))) mp V.

(** Lines 123-128: one iteration of the Lucas-Lehmer loop, from the state
    of [t] and the value of [V].  Line 125 is the first to use [t]: it
    assigns to it, which needs an initialised variable. *)
Definition lucas_step (p mp : Z) (t : mpz_t) (V : Z) : Loop :=
  let V := V * V in
  let V := V - 2 in
  match t with
  | Cleared => UsesCleared
  | Holds _ =>
      let t := mpz_tdiv_r_2exp V p in
      let V := mpz_tdiv_q_2exp V p in
      let V := V + t in
      match reduce mp V with
      | Some V => Goes (Holds t) V
      | None => Unending
      end
  end.

(** Lines 122-129: [n] iterations from [t] and [V]. *)
Fixpoint lucas_loop (p mp : Z) (n : nat) (t : mpz_t) (V : Z) : Loop :=
  match n with
  | O => Goes t V
  | S n' =>
      match lucas_step p mp t V with
      | Goes t' V' => lucas_loop p mp n' t' V'
      | UsesCleared => UsesCleared
      | Unending => Unending
      end
  end.

(** Line 96-99: the test of the special factor [2p + 1]. *)
Definition special_factor (p mp : Z) : bool :=
  (p >? 3) && (p mod 4 =? 3)
  && negb (mpz_probab_prime_p (2 * p + 1) 25 =? 0)
  && mpz_divisible_p mp (2 * p + 1).

(** Lines 117-133.  Line 117 is [mpz_clear (t)], line 121 sets [V] to 4,
    and no line initialises [t] again.  [for (k = 3; k <= p; k++)] runs
    [p - 2] times, and for ever when [p] is [ULONG_MAX] ([k <= p] is then
    always true). *)
Definition lucas_lehmer_stage (p mp : Z) : Outcome :=
  let t := Cleared in
  match lucas_loop p mp (Z.to_nat (p - 2)) t 4 with
  | Goes _ V => if p =? ULONG_MAX then Hang else ReturnLucasLehmer V
  | UsesCleared => UseAfterClear
  | Unending => Hang
  end.

(** Lines 106-133. *)
Definition trial_stage (p mp : Z) : Outcome :=
  match tlim p with
  | None => DivideByZero
  | Some tl =>
      match trial_division p mp tl with
      | Some q => ReturnTrial q
      | None => lucas_lehmer_stage p mp
      end
  end.

(** [lucas_lehmer], with the [return] that was taken. *)
Definition lucas_lehmer_path (p : Z) : Outcome :=
  if p =? 2 then ReturnBase
  else if mpz_probab_prime_p p 25 =? 0 then ReturnExponent
  else
    let mp := mersenne p in
    if special_factor p mp then ReturnSpecial
    else trial_stage p mp.

(** [int lucas_lehmer(unsigned long p)]. *)
Definition lucas_lehmer (p : Z) : option Z :=
  return_value (lucas_lehmer_path p).

End Pipeline.

(** ** A deterministic stand-in for GMP's primality test

    Trial division by every [d] with [2 <= d <= sqrt n].  It is used to
    instantiate [mpz_probab_prime_p] on concrete inputs. *)
Fixpoint no_divisor_from (n : Z) (fuel : nat) (d : Z) : bool :=
  match fuel with
  | O => true
  | S fuel' => negb (n mod d =? 0) && no_divisor_from n fuel' (d + 1)
  end.

Definition is_prime (n : Z) : bool :=
  (1 <? n) && no_divisor_from n (Z.to_nat (Z.sqrt n - 1)) 2.

(** Like GMP, the test is applied to the absolute value; the number of
    repetitions plays no part. *)
Definition trial_probab_prime_p (n reps : Z) : Z :=
  if is_prime (Z.abs n) then 2 else 0.

(** ** The Lucas-Lehmer sequence of the specification

    [V_1 = 4], [V_{k+1} = (V_k^2 - 2) mod M_p]; [lucas_lehmer_ref p n] is
    the value after [n] steps, the residue in [0, M_p). *)
Fixpoint lucas_lehmer_ref (p : Z) (n : nat) : Z :=
  match n with
  | O => 4
  | S n' => ((lucas_lehmer_ref p n') ^ 2 - 2) mod (mersenne p)
  end.

(** The overflow-free bound of the specification,
    [min (p / 2, MAX / (2p))], with [2p] the integer product. *)
Definition tlim_spec (MAX p : Z) : Z := Z.min (p / 2) (MAX / (2 * p)).

(** ** Command line: the starting exponent *)

(** [isspace] and [isdigit] in the C locale. *)
Definition isspace (c : ascii) : bool :=
  let n := Z.of_nat (nat_of_ascii c) in (n =? 32) || ((9 <=? n) && (n <=? 13)).

Definition isdigit (c : ascii) : bool :=
  let n := Z.of_nat (nat_of_ascii c) in (48 <=? n) && (n <=? 57).

Definition digit_value (c : ascii) : Z := Z.of_nat (nat_of_ascii c) - 48.

Fixpoint skip_spaces (s : string) : string :=
  match s with
  | String c s' => if isspace c then skip_spaces s' else s
  | EmptyString => s
  end.

(** The value of the longest prefix of decimal digits; [None] when the
    prefix is empty. [acc] is [Some] once a digit has been read. *)
Fixpoint read_digits (s : string) (acc : option Z) : option Z :=
  match s with
  | String c s' =>
      if isdigit c
      then read_digits s' (Some (10 * default 0 acc + digit_value c))
      else acc
  | EmptyString => acc
  end.

(** An optional sign, and what follows it. *)
Definition strip_sign (s : string) : bool * string :=
  match s with
  | String "-"%char s' => (true, s')
  | String "+"%char s' => (false, s')
  | _ => (false, s)
  end.

(** ISO C [strtoul (nptr, 0, 10)]: white space, an optional sign, decimal
    digits.  No digits: 0.  A value above [ULONG_MAX]: [ULONG_MAX].  A minus
    sign: the value negated in the type [unsigned long]. *)
Definition strtoul (ULONG_MAX : Z) (nptr : string) : Z :=
  let '(neg, s) := strip_sign (skip_spaces nptr) in
  match read_digits s None with
  | None => 0
  | Some v =>
      if v >? ULONG_MAX then ULONG_MAX
      else if neg then wrap ULONG_MAX (- v) else v
  end.

(** An argument that cannot be parsed as an unsigned integer: after the
    white space and the sign there is no digit. *)
Definition no_conversion (nptr : string) : bool :=
  match snd (strip_sign (skip_spaces nptr)) with
  | String c _ => negb (isdigit c)
  | EmptyString => true
  end.

(** Line 152: [start = (argc >= 2) ? strtoul(argv[1], 0, 10) : 1], where
    [argv] lists the program name and its arguments. *)
Definition main_start (ULONG_MAX : Z) (argv : list string) : Z :=
  match argv with
  | _ :: arg :: _ => strtoul ULONG_MAX arg
  | _ => 1
  end.

(** ** The bounded task queue *)

Module TQ.

(** [ThreadData]: the exponent handed to a worker. *)
Record ThreadData : Type := { p : Z }.

(** [TaskQueue].  The mutex has no field: the statements it protects are
    one step. *)
Record TaskQueue : Type := {
  tasks : list ThreadData;
  max_tasks : Z;
  head : Z;
  tail : Z;
  count : Z;
  sem_empty : Z;
  sem_full : Z
}.

(** What a call, or a part of it, does: it completes, it waits on a
    semaphore whose value is 0, or its behaviour is undefined in C (an
    index outside the array, a remainder by 0). *)
Inductive Step (A : Type) : Type :=
| Done (a : A)
| Blocks
| Undefined.
Arguments Done {A} a.
Arguments Blocks {A}.
Arguments Undefined {A}.

#[export] Instance Step_bind : MBind Step := fun A B f m =>
  match m with
  | Done a => f a
  | Blocks => Blocks
  | Undefined => Undefined
  end.

(** [init_queue]: [mem] is the block of [max_tasks] elements that [malloc]
    returns, whose contents are indeterminate. *)
Definition init_queue (mem : list ThreadData) (max_tasks : Z) : TaskQueue :=
  {| tasks := mem; max_tasks := max_tasks;
     head := 0; tail := 0; count := 0;
     sem_empty := max_tasks; sem_full := 0 |}.

(** [sem_wait]: waits while the value is 0, then decrements it. *)
Definition sem_wait (s : Z) : Step Z :=
  if 0 <? s then Done (s - 1) else Blocks.

(** [sem_post]. *)
Definition sem_post (s : Z) : Z := s + 1.

(** [a[i]] and [a[i] = x] on an array of [length a] elements. *)
Definition in_bounds {A : Type} (a : list A) (i : Z) : bool :=
  (0 <=? i) && (i <? Z.of_nat (length a)).

Definition array_get {A : Type} (a : list A) (i : Z) : Step A :=
  if in_bounds a i
  then match a !! Z.to_nat i with Some x => Done x | None => Undefined end
  else Undefined.

Definition array_set {A : Type} (a : list A) (i : Z) (x : A) : Step (list A) :=
  if in_bounds a i then Done (<[Z.to_nat i := x]> a) else Undefined.

(** [(i + 1) % max_tasks] on [int]. *)
Definition next_index (i m : Z) : Step Z :=
  if m =? 0 then Undefined else Done (Z.rem (i + 1) m).

(** Line 56. *)
Definition enqueue_wait (q : TaskQueue) : Step TaskQueue :=
  e ← sem_wait (sem_empty q);
  Done {| tasks := tasks q; max_tasks := max_tasks q; head := head q;
          tail := tail q; count := count q;
          sem_empty := e; sem_full := sem_full q |}.

(** Lines 57-61, under the mutex. *)
Definition enqueue_locked (q : TaskQueue) (data : ThreadData) : Step TaskQueue :=
  ts ← array_set (tasks q) (tail q) data;
  t ← next_index (tail q) (max_tasks q);
  Done {| tasks := ts; max_tasks := max_tasks q; head := head q;
          tail := t; count := count q + 1;
          sem_empty := sem_empty q; sem_full := sem_full q |}.

(** Line 62. *)
Definition enqueue_post (q : TaskQueue) : TaskQueue :=
  {| tasks := tasks q; max_tasks := max_tasks q; head := head q;
     tail := tail q; count := count q;
     sem_empty := sem_empty q; sem_full := sem_post (sem_full q) |}.

(** [enqueue], run without interruption. *)
Definition enqueue (q : TaskQueue) (data : ThreadData) : Step TaskQueue :=
  q1 ← enqueue_wait q;
  q2 ← enqueue_locked q1 data;
  Done (enqueue_post q2).

(** Line 66. *)
Definition dequeue_wait (q : TaskQueue) : Step TaskQueue :=
  f ← sem_wait (sem_full q);
  Done {| tasks := tasks q; max_tasks := max_tasks q; head := head q;
          tail := tail q; count := count q;
          sem_empty := sem_empty q; sem_full := f |}.

(** Lines 67-71, under the mutex. *)
Definition dequeue_locked (q : TaskQueue) : Step (ThreadData * TaskQueue) :=
  data ← array_get (tasks q) (head q);
  h ← next_index (head q) (max_tasks q);
  Done (data,
        {| tasks := tasks q; max_tasks := max_tasks q; head := h;
           tail := tail q; count := count q - 1;
           sem_empty := sem_empty q; sem_full := sem_full q |}).

(** Line 72. *)
Definition dequeue_post (q : TaskQueue) : TaskQueue :=
  {| tasks := tasks q; max_tasks := max_tasks q; head := head q;
     tail := tail q; count := count q;
     sem_empty := sem_post (sem_empty q); sem_full := sem_full q |}.

(** [dequeue], run without interruption. *)
Definition dequeue (q : TaskQueue) : Step (ThreadData * TaskQueue) :=
  q1 ← dequeue_wait q;
  '(data, q2) ← dequeue_locked q1;
  Done (data, dequeue_post q2).

(** *** Calls run one after the other *)

Inductive Op : Type :=
| Enqueue (data : ThreadData)
| Dequeue.

(** The calls of [ops] in order, none of which has to wait: the final
    queue and the values that the [dequeue] calls returned, in order. *)
Fixpoint run (ops : list Op) (q : TaskQueue) : Step (TaskQueue * list ThreadData) :=
  match ops with
  | [] => Done (q, [])
  | Enqueue data :: ops' => q' ← enqueue q data; run ops' q'
  | Dequeue :: ops' =>
      '(data, q') ← dequeue q;
      '(q'', out) ← run ops' q';
      Done (q'', data :: out)
  end.

(** The arguments of the [enqueue] calls of [ops], in order. *)
Fixpoint enqueued (ops : list Op) : list ThreadData :=
  match ops with
  | [] => []
  | Enqueue data :: ops' => data :: enqueued ops'
  | Dequeue :: ops' => enqueued ops'
  end.

(** The contents of [n] slots of the circular buffer from index [i] on. *)
Fixpoint read_slots (ts : list ThreadData) (m i : Z) (n : nat) : list ThreadData :=
  match n with
  | O => []
  | S n' =>
      match ts !! Z.to_nat i with
      | Some data => data :: read_slots ts m (Z.rem (i + 1) m) n'
      | None => []
      end
  end.

(** The occupied slots: [count] slots from [head] on. *)
Definition pending (q : TaskQueue) : list ThreadData :=
  read_slots (tasks q) (max_tasks q) (head q) (Z.to_nat (count q)).

(** Whether slot [i] is one of the [count] slots from [head] on. *)
Definition occupied (q : TaskQueue) (i : Z) : bool :=
  (Z.rem (i - head q + max_tasks q) (max_tasks q)) <? count q.

(** *** Calls of several threads, interleaved

    A thread is at rest or inside a call, before one of its lines.  The
    statements between [pthread_mutex_lock] and [pthread_mutex_unlock]
    are one step of the thread that holds the mutex. *)
Inductive Position : Type :=
| AtRest
| Enq57 (data : ThreadData)  (* in enqueue, [sem_wait] done *)
| Enq62                      (* in enqueue, before [sem_post] *)
| Deq67                      (* in dequeue, [sem_wait] done *)
| Deq72 (data : ThreadData). (* in dequeue, before [sem_post] *)

Inductive Call : Type :=
| CallEnqueue (data : ThreadData)
| CallDequeue.

(** The queue, the threads, and two histories that the program does not
    keep: the values stored by line 58 and the values loaded by line 68,
    in the order of these accesses. *)
Record System : Type := {
  queue : TaskQueue;
  threads : list Position;
  stored : list ThreadData;
  loaded : list ThreadData
}.

(** The start: the queue that [init_queue] makes and [n] threads at rest. *)
Definition boot (mem : list ThreadData) (max_tasks : Z) (n : nat) : System :=
  {| queue := init_queue mem max_tasks; threads := replicate n AtRest;
     stored := []; loaded := [] |}.

(** The next step of thread [i]; [c] is the call it makes if it is at
    rest. *)
Definition move (i : nat) (c : Call) (s : System) : Step System :=
  match threads s !! i with
  | None => Blocks
  | Some AtRest =>
      match c with
      | CallEnqueue data =>
          q ← enqueue_wait (queue s);
          Done {| queue := q; threads := <[i := Enq57 data]> (threads s);
                  stored := stored s; loaded := loaded s |}
      | CallDequeue =>
          q ← dequeue_wait (queue s);
          Done {| queue := q; threads := <[i := Deq67]> (threads s);
                  stored := stored s; loaded := loaded s |}
      end
  | Some (Enq57 data) =>
      q ← enqueue_locked (queue s) data;
      Done {| queue := q; threads := <[i := Enq62]> (threads s);
              stored := stored s ++ [data]; loaded := loaded s |}
  | Some Enq62 =>
      Done {| queue := enqueue_post (queue s);
              threads := <[i := AtRest]> (threads s);
              stored := stored s; loaded := loaded s |}
  | Some Deq67 =>
      '(data, q) ← dequeue_locked (queue s);
      Done {| queue := q; threads := <[i := Deq72 data]> (threads s);
              stored := stored s; loaded := loaded s ++ [data] |}
  | Some (Deq72 data) =>
      Done {| queue := dequeue_post (queue s);
              threads := <[i := AtRest]> (threads s);
              stored := stored s; loaded := loaded s |}
  end.

(** A schedule: which thread moves next. *)
Fixpoint exec (sched : list (nat * Call)) (s : System) : Step System :=
  match sched with
  | [] => Done s
  | (i, c) :: sched' => s' ← move i c s; exec sched' s'
  end.

(** The number of threads at a position that satisfies [f]. *)
Fixpoint tally (f : Position -> bool) (l : list Position) : Z :=
  match l with
  | [] => 0
  | x :: l' => (if f x then 1 else 0) + tally f l'
  end.

Definition at57 (x : Position) : bool := match x with Enq57 _ => true | _ => false end.
Definition at62 (x : Position) : bool := match x with Enq62 => true | _ => false end.
Definition at67 (x : Position) : bool := match x with Deq67 => true | _ => false end.
Definition at72 (x : Position) : bool := match x with Deq72 _ => true | _ => false end.

(** The shape of a queue of capacity [C]. *)
Definition well_formed (C : Z) (q : TaskQueue) : Prop :=
  0 < C /\ max_tasks q = C /\ Z.of_nat (length (tasks q)) = C /\
  0 <= head q < C /\ 0 <= tail q < C /\ 0 <= count q <= C /\
  tail q = (head q + count q) mod C.

(** A queue between two uninterrupted calls. *)
Definition quiescent (C : Z) (q : TaskQueue) : Prop :=
  well_formed C q /\ sem_empty q = C - count q /\ sem_full q = count q.

(** A queue with calls in progress. *)
Definition balanced (C : Z) (s : System) : Prop :=
  well_formed C (queue s) /\
  0 <= sem_empty (queue s) /\ 0 <= sem_full (queue s) /\
  sem_empty (queue s) + tally at57 (threads s) + tally at72 (threads s)
    = C - count (queue s) /\
  sem_full (queue s) + tally at62 (threads s) + tally at67 (threads s)
    = count (queue s) /\
  stored s = loaded s ++ pending (queue s).

(** Whether a step of the schedule is the [sem_post (&sem_empty)] of
    line 72, by which a [dequeue] frees a slot. *)
Fixpoint frees_slot (sched : list (nat * Call)) (s : System) : bool :=
  match sched with
  | [] => false
  | (i, c) :: sched' =>
      match threads s !! i with
      | Some (Deq72 _) => true
      | _ => match move i c s with
             | Done s' => frees_slot sched' s'
             | _ => false
             end
      end
  end.

(** Whether a step of the schedule is the [sem_post (&sem_full)] of
    line 62, by which an [enqueue] announces a value. *)
Fixpoint announces_value (sched : list (nat * Call)) (s : System) : bool :=
  match sched with
  | [] => false
  | (i, c) :: sched' =>
      match threads s !! i with
      | Some Enq62 => true
      | _ => match move i c s with
             | Done s' => announces_value sched' s'
             | _ => false
             end
      end
  end.

End TQ.

(** ** The generator and the workers

    [main] (lines 151-165) and [worker_thread] (lines 137-149), on the
    queue above.  Thread 0 of the system is [main]; thread [S w] is the
    worker [w].  The time stamps of [LOG] depend on the clock and are left
    out: the output is the sequence of the messages. *)

Module Pool.

Import TQ.

(** The messages, one per [LOG] call. *)
Inductive Message : Type :=
| Required (e : Z)     (* line 118: "Lucas-Lehmer is required for M%lu" *)
| Discovered (e : Z)   (* line 142: "Discovered Mersenne Prime!! M%lu" *)
| Remember             (* line 143: "Remember to do a full candidacy check." *)
| NotPrime (e : Z).    (* line 145: "-- %lu is not prime." *)

(** Where a worker is in the loop of lines 139-147. *)
Inductive Work : Type :=
| Fetching               (* line 140: in [dequeue], or about to call it *)
| Testing (e : Z)        (* line 141: in [lucas_lehmer], before line 118 *)
| Iterating (e : Z)      (* in [lucas_lehmer], past line 118 *)
| Reporting (e r : Z)    (* [lucas_lehmer] has returned [r] *)
| Reminding.             (* line 142 done, line 143 is next *)

Record State : Type := {
  system : System;
  next : Z;              (* the [i] of line 162 *)
  works : list Work;     (* one per worker *)
  output : list Message
}.

Inductive Actor : Type :=
| Main
| Worker (w : nat).

(** Lines 152-160: the queue of 100 slots, the workers ([MAX_THREADS] of
    them), and [i = start]. *)
Definition start_state (mem : list ThreadData) (workers : nat) (start : Z) : State :=
  {| system := boot mem 100 (S workers); next := start;
     works := replicate workers Fetching; output := [] |}.

Section Steps.

Variable ULONG_MAX : Z.
Variable mpz_probab_prime_p : Z -> Z -> Z.

(** Lines 162-165: [main] calls [enqueue] with [{ .p = i }]; when the call
    has returned ([sem_post] was its last step), [i++]. *)
Definition main_step (s : State) : Step State :=
  sys ← move 0 (CallEnqueue {| p := next s |}) (system s);
  Done {| system := sys;
          next := match threads (system s) !! 0%nat with
                  | Some Enq62 => wrap ULONG_MAX (next s + 1)
                  | _ => next s
                  end;
          works := works s; output := output s |}.

(** Lines 141-146, for a worker that holds an exponent: the next piece of
    work and the messages it prints.  [lucas_lehmer] is evaluated up to
    line 118, then to its [return].  A call that does not end leaves the
    worker without a further step; a division by zero and a use of the
    cleared [t] are undefined, for the whole program. *)
Definition work_on (wk : Work) : Step (Work * list Message) :=
  match wk with
  | Fetching => Blocks
  | Testing e =>
      let path := lucas_lehmer_path ULONG_MAX mpz_probab_prime_p e in
      if reached_lucas_lehmer path then Done (Iterating e, [Required e])
      else match return_value path with
           | Some r => Done (Reporting e r, [])
           | None => Undefined
           end
  | Iterating e =>
      let path := lucas_lehmer_path ULONG_MAX mpz_probab_prime_p e in
      match return_value path with
      | Some r => Done (Reporting e r, [])
      | None => match path with
                | Hang => Blocks
                | _ => Undefined
                end
      end
  | Reporting e r =>
      if r =? 0 then Done (Fetching, [NotPrime e])
      else Done (Reminding, [Discovered e])
  | Reminding => Done (Fetching, [Remember])
  end.

(** Lines 139-147: a worker calls [dequeue] (line 140) and, when the call
    has returned, works on the exponent it got. *)
Definition worker_step (w : nat) (s : State) : Step State :=
  match works s !! w with
  | None => Blocks
  | Some Fetching =>
      sys ← move (S w) CallDequeue (system s);
      Done {| system := sys; next := next s;
              works := match threads (system s) !! S w with
                       | Some (Deq72 data) => <[w := Testing (p data)]> (works s)
                       | _ => works s
                       end;
              output := output s |}
  | Some wk =>
      '(wk', msgs) ← work_on wk;
      Done {| system := system s; next := next s;
              works := <[w := wk']> (works s);
              output := output s ++ msgs |}
  end.

Definition step (a : Actor) (s : State) : Step State :=
  match a with
  | Main => main_step s
  | Worker w => worker_step w s
  end.

(** A schedule: which thread takes the next step. *)
Fixpoint steps (sched : list Actor) (s : State) : Step State :=
  match sched with
  | [] => Done s
  | a :: sched' => s' ← step a s; steps sched' s'
  end.

(** What a message says of [lucas_lehmer]. *)
Definition message_right (m : Message) : Prop :=
  match m with
  | Required e =>
      reached_lucas_lehmer (lucas_lehmer_path ULONG_MAX mpz_probab_prime_p e) = true
  | Discovered e =>
      exists r, lucas_lehmer ULONG_MAX mpz_probab_prime_p e = Some r /\ r <> 0
  | NotPrime e => lucas_lehmer ULONG_MAX mpz_probab_prime_p e = Some 0
  | Remember => True
  end.

Definition work_right (w : Work) : Prop :=
  match w with
  | Iterating e =>
      reached_lucas_lehmer (lucas_lehmer_path ULONG_MAX mpz_probab_prime_p e) = true
  | Reporting e r => lucas_lehmer ULONG_MAX mpz_probab_prime_p e = Some r
  | _ => True
  end.

End Steps.

(** The exponents [start], [start + 1], ... as [unsigned long] values: the
    first [n] of them. *)
Definition exponents_from (ULONG_MAX start : Z) (n : nat) : list ThreadData :=
  map (fun j => {| p := wrap ULONG_MAX (start + Z.of_nat j) |}) (seq 0 n).

(** The exponent that a verdict message is about. *)
Definition verdict_of (m : Message) : option Z :=
  match m with
  | Discovered e | NotPrime e => Some e
  | _ => None
  end.

(** The exponent that a worker holds and has not yet reported. *)
Definition held_by (w : Work) : option Z :=
  match w with
  | Testing e | Iterating e | Reporting e _ => Some e
  | _ => None
  end.

(** The exponent that a thread has loaded and [dequeue] has not yet
    returned. *)
Definition carried_by (pos : Position) : option Z :=
  match pos with
  | Deq72 data => Some (p data)
  | _ => None
  end.

(** The positions of [main], which only calls [enqueue], and of a worker,
    which only calls [dequeue]. *)
Definition producing (pos : Position) : bool :=
  match pos with AtRest | Enq57 _ | Enq62 => true | _ => false end.

Definition consuming (pos : Position) : bool :=
  match pos with AtRest | Deq67 | Deq72 _ => true | _ => false end.

(** *** What the generator and the workers keep true *)

(** The threads keep to their roles: [main] is at rest or in [enqueue],
    with the exponent [i] in hand; a worker is at rest or in [dequeue], and
    at rest while it tests or reports. *)
Definition in_role (s : State) : Prop :=
  length (threads (system s)) = S (length (works s)) /\
  (exists pos, threads (system s) !! 0%nat = Some pos /\ producing pos = true /\
               forall data, pos = Enq57 data -> data = {| p := next s |}) /\
  (forall w pos, threads (system s) !! S w = Some pos -> consuming pos = true) /\
  (forall w wk, works s !! w = Some wk -> wk <> Fetching ->
                threads (system s) !! S w = Some AtRest).

(** The values stored in the queue are [start], [start + 1], ... in this
    order, and [i] is the next of them. *)
Definition in_order (ULONG_MAX start : Z) (s : State) : Prop :=
  stored (system s)
    = exponents_from ULONG_MAX start (length (stored (system s))) /\
  next s = wrap ULONG_MAX
             (start + Z.of_nat (length (stored (system s)))
              - match threads (system s) !! 0%nat with
                | Some Enq62 => 1
                | _ => 0
                end).

(** Every exponent loaded from the queue is either reported, or held by a
    worker, or on its way out of [dequeue]: once each. *)
Definition accounted (s : State) : Prop :=
  omap verdict_of (output s) ++ omap held_by (works s)
    ++ omap carried_by (threads (system s))
  ≡ₚ map p (loaded (system s)).

(** The messages are right, and so is what the workers are about to
    report. *)
Definition truthful (ULONG_MAX : Z) (mpz_probab_prime_p : Z -> Z -> Z)
    (s : State) : Prop :=
  Forall (message_right ULONG_MAX mpz_probab_prime_p) (output s) /\
  Forall (work_right ULONG_MAX mpz_probab_prime_p) (works s).

(** All of it, for a run that began with the exponent [start]. *)
Definition consistent (ULONG_MAX : Z) (mpz_probab_prime_p : Z -> Z -> Z)
    (start : Z) (s : State) : Prop :=
  in_role s /\ in_order ULONG_MAX start s /\ accounted s /\
  truthful ULONG_MAX mpz_probab_prime_p s /\ balanced 100 (system s).

End Pool.

(** * Properties *)

(** ** The trial-division primality test decides [Z.prime] *)

Lemma no_divisor_from_true n fuel d :
  no_divisor_from n fuel d = true <->
  forall e, d <= e < d + Z.of_nat fuel -> n mod e <> 0.
Proof.
  revert d. induction fuel as [|fuel IH]; intros d; simpl no_divisor_from.
  - split; [intros _ e He; lia | reflexivity].
  - rewrite andb_true_iff, negb_true_iff, Z.eqb_neq, IH. split.
    + intros [Hd Hrest] e He.
      destruct (Z.eq_dec e d) as [->|Hne]; [exact Hd | apply Hrest; lia].
    + intros H. split; [apply H; lia | intros e He; apply H; lia].
Qed.

Lemma small_divisor n a b :
  0 < a -> 0 < b -> n = a * b -> a <= Z.sqrt n \/ b <= Z.sqrt n.
Proof.
  intros Ha Hb Hn.
  assert (Hs := Z.sqrt_spec n ltac:(nia)). cbv zeta in Hs.
  assert (0 <= Z.sqrt n) by apply Z.sqrt_nonneg.
  destruct (Z_le_gt_dec a (Z.sqrt n)); [now left|].
  destruct (Z_le_gt_dec b (Z.sqrt n)); [now right|].
  exfalso. nia.
Qed.

Lemma is_prime_sound n : is_prime n = true -> Z.prime n.
Proof.
  unfold is_prime. rewrite andb_true_iff, Z.ltb_lt, no_divisor_from_true.
  intros [Hn Hdiv]. split; [exact Hn|].
  intros a Ha [b Hb].
  assert (0 < b) by nia.
  assert (1 < b) by nia.
  assert (Hs := Z.sqrt_spec n ltac:(lia)). cbv zeta in Hs.
  assert (1 <= Z.sqrt n) by nia.
  destruct (small_divisor n b a) as [Hle|Hle]; try lia.
  - apply (Hdiv b); [lia|]. subst n. rewrite Z.mul_comm. apply Z.mod_mul; lia.
  - apply (Hdiv a); [lia|]. subst n. apply Z.mod_mul; lia.
Qed.

Lemma is_prime_complete n : Z.prime n -> is_prime n = true.
Proof.
  intros [Hn Hdiv]. unfold is_prime.
  rewrite andb_true_iff, Z.ltb_lt, no_divisor_from_true.
  split; [exact Hn|]. intros e He Hmod.
  assert (Hs := Z.sqrt_spec n ltac:(lia)). cbv zeta in Hs.
  assert (0 <= Z.sqrt n) by apply Z.sqrt_nonneg.
  apply (Hdiv e); [nia|].
  apply Z.mod_divide; [lia | exact Hmod].
Qed.

Lemma is_prime_iff n : is_prime n = true <-> Z.prime n.
Proof. split; [apply is_prime_sound | apply is_prime_complete]. Qed.

(** The stand-in never rejects a prime, and accepts nothing else. *)
Lemma trial_probab_prime_p_complete n reps :
  Z.prime n -> trial_probab_prime_p n reps <> 0.
Proof.
  intros Hp. unfold trial_probab_prime_p.
  assert (1 < n) by apply Hp.
  rewrite Z.abs_eq by lia. rewrite (is_prime_complete n Hp). discriminate.
Qed.

Lemma trial_probab_prime_p_exact n reps :
  0 <= n -> (trial_probab_prime_p n reps <> 0 <-> Z.prime n).
Proof.
  intros Hn. unfold trial_probab_prime_p. rewrite Z.abs_eq by lia.
  rewrite <- is_prime_iff. destruct (is_prime n); split; congruence.
Qed.

(** ** [unsigned long] arithmetic on small exponents

    When [p * p <= ULONG_MAX] nothing wraps around in the trial-division
    stage, and the stage does not depend on [ULONG_MAX]. *)

Lemma wrap_small M x : 0 <= x <= M -> wrap M x = x.
Proof. intros H. unfold wrap. apply Z.mod_small. lia. Qed.

Lemma half_mul_le p : 0 <= p -> 2 * (p / 2) <= p.
Proof. intros H. apply Z.mul_div_le. lia. Qed.

Lemma tlim_small M p : 2 <= p -> p * p <= M -> tlim M p = Some (p / 2).
Proof.
  intros Hp HM. unfold tlim.
  rewrite wrap_small by nia.
  destruct (Z.eqb_spec (2 * p) 0) as [?|_]; [lia|].
  rewrite Z.gtb_ltb.
  assert (Hle : p / 2 <= M / (2 * p)).
  { apply Z.div_le_lower_bound; [lia|]. pose proof (half_mul_le p). nia. }
  destruct (Z.ltb_spec (M / (2 * p)) (p / 2)); [lia | reflexivity].
Qed.

Lemma trial_q_small M p k :
  2 <= p -> p * p <= M -> 1 <= k < p / 2 -> trial_q M p k = 2 * p * k + 1.
Proof.
  intros Hp HM Hk. unfold trial_q.
  pose proof (half_mul_le p).
  assert (2 * p * k + 1 <= M) by nia.
  rewrite (wrap_small M (2 * p)) by nia.
  rewrite (wrap_small M (2 * p * k)) by nia.
  apply wrap_small. nia.
Qed.

Lemma trial_from_small M M' p mp n k :
  2 <= p -> p * p <= M -> p * p <= M' ->
  1 <= k -> k + Z.of_nat n <= p / 2 ->
  trial_from M p mp n k = trial_from M' p mp n k.
Proof.
  intros Hp HM HM'. revert k.
  induction n as [|n IH]; intros k Hk Hn; [reflexivity|].
  cbn [trial_from].
  rewrite (trial_q_small M), (trial_q_small M') by lia.
  rewrite IH by lia. reflexivity.
Qed.

Lemma trial_stage_small M M' p mp :
  2 <= p -> p * p <= M -> p * p <= M' ->
  trial_stage M p mp = trial_stage M' p mp.
Proof.
  intros Hp HM HM'. unfold trial_stage, trial_division, lucas_lehmer_stage.
  rewrite (tlim_small M), (tlim_small M') by assumption.
  assert (1 <= p / 2) by (apply Z.div_le_lower_bound; lia).
  rewrite (trial_from_small M M') by (try assumption; lia).
  destruct (Z.eqb_spec p M) as [?|_]; [nia|].
  destruct (Z.eqb_spec p M') as [?|_]; [nia|].
  reflexivity.
Qed.

(** ** The pipeline on an exponent that passes the primality filter *)

Section Filters.

Variable ULONG_MAX : Z.
Variable mpz_probab_prime_p : Z -> Z -> Z.

(** GMP's contract: a prime is never reported as composite. *)
Hypothesis no_prime_rejected :
  forall n reps, Z.prime n -> mpz_probab_prime_p n reps <> 0.

Lemma path_of_prime p :
  Z.prime p -> p <> 2 ->
  lucas_lehmer_path ULONG_MAX mpz_probab_prime_p p =
  if special_factor mpz_probab_prime_p p (mersenne p) then ReturnSpecial
  else trial_stage ULONG_MAX p (mersenne p).
Proof.
  intros Hp H2. unfold lucas_lehmer_path.
  destruct (Z.eqb_spec p 2) as [?|_]; [contradiction|].
  destruct (Z.eqb_spec (mpz_probab_prime_p p 25) 0) as [H0|_]; [|reflexivity].
  exfalso. exact (no_prime_rejected p 25 Hp H0).
Qed.

Lemma special_factor_true p mp :
  Z.prime (2 * p + 1) ->
  (p >? 3) && (p mod 4 =? 3) && mpz_divisible_p mp (2 * p + 1) = true ->
  special_factor mpz_probab_prime_p p mp = true.
Proof.
  intros Hq H. unfold special_factor.
  apply andb_true_iff in H as [H Hd]. rewrite H, Hd.
  destruct (Z.eqb_spec (mpz_probab_prime_p (2 * p + 1) 25) 0) as [H0|_];
    [|reflexivity].
  exfalso. exact (no_prime_rejected _ 25 Hq H0).
Qed.

End Filters.

Lemma special_factor_false pp p mp :
  (p >? 3) && (p mod 4 =? 3) && mpz_divisible_p mp (2 * p + 1) = false ->
  special_factor pp p mp = false.
Proof.
  intros H. unfold special_factor.
  destruct ((p >? 3) && (p mod 4 =? 3)); [|reflexivity].
  cbn [andb] in *. rewrite H. apply andb_false_r.
Qed.

Ltac prime_by_trial_division := apply is_prime_sound; vm_compute; reflexivity.

(** The pipeline on a small prime [p]: move to [ULONG_MAX = 2^32 - 1], pass
    the filter on [p], settle the special factor, and evaluate the rest. *)
Ltac run_pipeline Hpp :=
  try unfold lucas_lehmer;
  rewrite (path_of_prime _ _ Hpp) by (prime_by_trial_division || lia);
  rewrite (trial_stage_small _ 4294967295) by lia;
  first
    [ rewrite special_factor_false by (vm_compute; reflexivity)
    | rewrite (special_factor_true _ Hpp)
        by (prime_by_trial_division || (vm_compute; reflexivity)) ];
  vm_compute; reflexivity.

(** C1, on the code.  With an [unsigned long] of 32 bits or more and a
    primality test that never rejects a prime, [lucas_lehmer] returns 1 for
    the exponent 2 and 0 for each of [11; 23; 29; 37; 43], which a filter
    rejects.  Each of [3; 5; 7; 13; 17; 19; 31; 61; 89; 107; 127] and each
    of [41; 47; 53] passes line 118, and the first iteration of the loop
    gives the variable [t], cleared at line 117, to [mpz_tdiv_r_2exp]
    (line 125): the call has no defined result, neither the 1 nor the 0
    that the claim states. *)
Theorem C1_known_exponents_reach_cleared_t ULONG_MAX mpz_probab_prime_p :
  2 ^ 32 - 1 <= ULONG_MAX ->
  (forall n reps, Z.prime n -> mpz_probab_prime_p n reps <> 0) ->
  lucas_lehmer ULONG_MAX mpz_probab_prime_p 2 = Some 1 /\
  (forall p, In p [11; 23; 29; 37; 43] ->
             lucas_lehmer ULONG_MAX mpz_probab_prime_p p = Some 0) /\
  (forall p, In p [3; 5; 7; 13; 17; 19; 31; 61; 89; 107; 127; 41; 47; 53] ->
             lucas_lehmer_path ULONG_MAX mpz_probab_prime_p p = UseAfterClear /\
             lucas_lehmer ULONG_MAX mpz_probab_prime_p p = None).
Proof.
  intros HM Hpp. change (2 ^ 32 - 1) with 4294967295 in HM.
  split; [reflexivity|].
  split; intros p Hin; cbn [In] in Hin.
  - repeat (destruct Hin as [<-|Hin]; [run_pipeline Hpp|]).
    contradiction.
  - assert (Hpath : lucas_lehmer_path ULONG_MAX mpz_probab_prime_p p
                    = UseAfterClear).
    { repeat (destruct Hin as [<-|Hin]; [run_pipeline Hpp|]).
      contradiction. }
    split; [exact Hpath|]. unfold lucas_lehmer. rewrite Hpath. reflexivity.
Qed.

Lemma C1_known_exponents_reach_cleared_t_witness :
  lucas_lehmer (2 ^ 64 - 1) trial_probab_prime_p 2 = Some 1 /\
  lucas_lehmer (2 ^ 64 - 1) trial_probab_prime_p 11 = Some 0 /\
  lucas_lehmer_path (2 ^ 64 - 1) trial_probab_prime_p 3 = UseAfterClear /\
  lucas_lehmer (2 ^ 64 - 1) trial_probab_prime_p 41 = None.
Proof.
  destruct (C1_known_exponents_reach_cleared_t (2 ^ 64 - 1) trial_probab_prime_p)
    as (H2 & H0 & Hclear).
  - vm_compute. discriminate.
  - exact trial_probab_prime_p_complete.
  - split; [exact H2|].
    split; [apply H0; cbn; tauto|].
    split; [apply Hclear | apply Hclear]; cbn; tauto.
Defined.

(** ** Stage 4 on its own *)

(** C6. On [p = 11] and [p = 23] the trial-division stage, entered
    directly, finds the divisors 23 and 47 at [k = 1] and returns 0; the
    Lucas-Lehmer stage is not reached. *)
Theorem C6_trial_division_alone ULONG_MAX :
  2 ^ 32 - 1 <= ULONG_MAX ->
  (tlim ULONG_MAX 11 = Some 5 /\
   trial_division ULONG_MAX 11 (mersenne 11) 5 = Some 23 /\
   trial_stage ULONG_MAX 11 (mersenne 11) = ReturnTrial 23) /\
  (tlim ULONG_MAX 23 = Some 11 /\
   trial_division ULONG_MAX 23 (mersenne 23) 11 = Some 47 /\
   trial_stage ULONG_MAX 23 (mersenne 23) = ReturnTrial 47) /\
  return_value (ReturnTrial 23) = Some 0 /\
  return_value (ReturnTrial 47) = Some 0 /\
  reached_lucas_lehmer (trial_stage ULONG_MAX 11 (mersenne 11)) = false /\
  reached_lucas_lehmer (trial_stage ULONG_MAX 23 (mersenne 23)) = false.
Proof.
  intros HM. change (2 ^ 32 - 1) with 4294967295 in HM.
  rewrite (trial_stage_small ULONG_MAX 4294967295 11) by lia.
  rewrite (trial_stage_small ULONG_MAX 4294967295 23) by lia.
  rewrite (tlim_small ULONG_MAX 11), (tlim_small ULONG_MAX 23) by lia.
  unfold trial_division.
  rewrite (trial_from_small ULONG_MAX 4294967295 11)
    by first [lia | vm_compute; congruence].
  rewrite (trial_from_small ULONG_MAX 4294967295 23)
    by first [lia | vm_compute; congruence].
  vm_compute. repeat split; reflexivity.
Qed.

Lemma C6_trial_division_alone_witness :
  trial_stage (2 ^ 64 - 1) 11 (mersenne 11) = ReturnTrial 23 /\
  trial_stage (2 ^ 64 - 1) 23 (mersenne 23) = ReturnTrial 47.
Proof.
  assert (H : 2 ^ 32 - 1 <= 2 ^ 64 - 1) by (vm_compute; discriminate).
  destruct (C6_trial_division_alone (2 ^ 64 - 1) H)
    as [(_ & _ & H11) [(_ & _ & H23) _]].
  split; assumption.
Defined.

(** ** Exponents below 2 *)

(** C10. When GMP's test reports 0 and 1 as not prime, [lucas_lehmer]
    returns 0 for both at line 88: it does return, and nothing after the
    filter is executed. *)
Theorem C10_zero_and_one ULONG_MAX mpz_probab_prime_p :
  mpz_probab_prime_p 0 25 = 0 ->
  mpz_probab_prime_p 1 25 = 0 ->
  lucas_lehmer_path ULONG_MAX mpz_probab_prime_p 0 = ReturnExponent /\
  lucas_lehmer_path ULONG_MAX mpz_probab_prime_p 1 = ReturnExponent /\
  lucas_lehmer ULONG_MAX mpz_probab_prime_p 0 = Some 0 /\
  lucas_lehmer ULONG_MAX mpz_probab_prime_p 1 = Some 0.
Proof.
  intros H0 H1. unfold lucas_lehmer, lucas_lehmer_path.
  cbn [Z.eqb]. rewrite H0, H1. repeat split; reflexivity.
Qed.

Lemma C10_zero_and_one_witness :
  lucas_lehmer (2 ^ 64 - 1) trial_probab_prime_p 0 = Some 0 /\
  lucas_lehmer (2 ^ 64 - 1) trial_probab_prime_p 1 = Some 0.
Proof.
  destruct (C10_zero_and_one (2 ^ 64 - 1) trial_probab_prime_p)
    as (_ & _ & H0 & H1); [reflexivity | reflexivity |].
  split; assumption.
Defined.

(** The filter is what keeps [p = 0] from the division of line 107: a test
    that let 0 through would lead to a division by [2 * 0]. *)
Lemma zero_past_the_filter ULONG_MAX mpz_probab_prime_p :
  0 <= ULONG_MAX ->
  mpz_probab_prime_p 0 25 <> 0 ->
  lucas_lehmer_path ULONG_MAX mpz_probab_prime_p 0 = DivideByZero.
Proof.
  intros HM H0. unfold lucas_lehmer_path. cbn [Z.eqb].
  destruct (Z.eqb_spec (mpz_probab_prime_p 0 25) 0) as [?|_]; [contradiction|].
  cbv zeta. unfold special_factor. cbn [Z.gtb Z.compare andb].
  unfold trial_stage, tlim, wrap. cbn [Z.mul].
  rewrite Z.mod_0_l by lia. reflexivity.
Qed.

(** ** Stage 3: the special factor [2p + 1] *)

Lemma divides_divisible n d : 0 < d -> (d | n) -> mpz_divisible_p n d = true.
Proof.
  intros Hd Hdiv. unfold mpz_divisible_p.
  destruct (Z.eqb_spec d 0) as [?|_]; [lia|].
  apply Z.eqb_eq. apply Z.mod_divide; [lia | exact Hdiv].
Qed.

(** C5, as it holds.  An exponent [p > 3] with [p mod 4 = 3] whose factor
    [2p + 1] is reported as (probably) prime and divides [M_p] is rejected
    at line 102 if [p] has passed the exponent filter, and at line 88
    otherwise; in both cases 0 is returned before the trial division and
    the Lucas-Lehmer stage.  [p = 11] passes the filter of any test that
    never rejects a prime and is rejected at line 102. *)
Theorem C5_special_factor_filter ULONG_MAX mpz_probab_prime_p :
  (forall p, 3 < p -> p mod 4 = 3 ->
     mpz_probab_prime_p (2 * p + 1) 25 <> 0 ->
     (2 * p + 1 | mersenne p) ->
     lucas_lehmer_path ULONG_MAX mpz_probab_prime_p p =
       (if mpz_probab_prime_p p 25 =? 0 then ReturnExponent else ReturnSpecial)
     /\ lucas_lehmer ULONG_MAX mpz_probab_prime_p p = Some 0
     /\ reached_lucas_lehmer
          (lucas_lehmer_path ULONG_MAX mpz_probab_prime_p p) = false) /\
  ((forall n reps, Z.prime n -> mpz_probab_prime_p n reps <> 0) ->
     lucas_lehmer_path ULONG_MAX mpz_probab_prime_p 11 = ReturnSpecial).
Proof.
  split.
  - intros p Hp H4 Hq Hdiv.
    assert (Hpath : lucas_lehmer_path ULONG_MAX mpz_probab_prime_p p =
      if mpz_probab_prime_p p 25 =? 0 then ReturnExponent else ReturnSpecial).
    { unfold lucas_lehmer_path.
      destruct (Z.eqb_spec p 2) as [?|_]; [lia|].
      destruct (mpz_probab_prime_p p 25 =? 0); [reflexivity|].
      cbv zeta. unfold special_factor.
      rewrite (divides_divisible (mersenne p) (2 * p + 1)) by (lia || exact Hdiv).
      destruct (Z.gtb_spec p 3) as [_|?]; [|lia].
      rewrite H4. cbn [Z.eqb Pos.eqb andb].
      destruct (Z.eqb_spec (mpz_probab_prime_p (2 * p + 1) 25) 0) as [?|_];
        [contradiction | reflexivity]. }
    unfold lucas_lehmer. rewrite Hpath.
    destruct (mpz_probab_prime_p p 25 =? 0); repeat split; reflexivity.
  - intros Hpp.
    rewrite (path_of_prime _ _ Hpp) by (prime_by_trial_division || lia).
    rewrite (special_factor_true _ Hpp)
      by (prime_by_trial_division || (vm_compute; reflexivity)).
    reflexivity.
Qed.

Lemma C5_special_factor_filter_witness :
  lucas_lehmer_path (2 ^ 64 - 1) trial_probab_prime_p 11 = ReturnSpecial /\
  lucas_lehmer_path (2 ^ 64 - 1) trial_probab_prime_p 15 = ReturnExponent.
Proof.
  destruct (C5_special_factor_filter (2 ^ 64 - 1) trial_probab_prime_p)
    as [Hall H11].
  split.
  - apply H11. exact trial_probab_prime_p_complete.
  - destruct (Hall 15) as (H15 & _ & _).
    + lia.
    + reflexivity.
    + vm_compute. discriminate.
    + exists 1057. reflexivity.
    + exact H15.
Defined.

(** C5 as it is worded fails for [p = 15]: [15 > 3], [15 mod 4 = 3],
    [2 * 15 + 1 = 31] is prime and divides [M_15 = 32767], and yet the
    pipeline returns at the exponent filter (line 88), not at the special
    factor filter (line 102). *)
Lemma C5_counterexample :
  3 < 15 /\ 15 mod 4 = 3 /\
  trial_probab_prime_p (2 * 15 + 1) 25 <> 0 /\
  (2 * 15 + 1 | mersenne 15) /\
  lucas_lehmer_path (2 ^ 64 - 1) trial_probab_prime_p 15 = ReturnExponent /\
  lucas_lehmer_path (2 ^ 64 - 1) trial_probab_prime_p 15 <> ReturnSpecial.
Proof.
  split; [lia|]. split; [reflexivity|].
  split; [vm_compute; discriminate|].
  split; [exists 1057; reflexivity|].
  split; [reflexivity | vm_compute; discriminate].
Qed.

(** ** Line 107 when [2 * p] exceeds [ULONG_MAX] *)

(** For an exponent whose double does not fit, the overflow-free bound is
    0, and the bound of the source is [ULONG_MAX] divided by the wrapped
    product: a positive number. *)
Lemma tlim_of_wrapped_double M p :
  3 <= M -> M + 1 < 2 * p -> p <= M ->
  tlim_spec M p = 0 /\
  wrap M (2 * p) = 2 * p - (M + 1) /\
  exists tl, tlim M p = Some tl /\
             tl = Z.min (p / 2) (M / (2 * p - (M + 1))) /\ 1 <= tl.
Proof.
  intros HM Hlo Hhi.
  assert (Hw : wrap M (2 * p) = 2 * p - (M + 1)).
  { unfold wrap. symmetry. apply (Z.mod_unique_pos _ _ 1); lia. }
  split; [|split; [exact Hw|]].
  - unfold tlim_spec. rewrite (Z.div_small M (2 * p)) by lia.
    assert (0 <= p / 2) by (apply Z.div_pos; lia). lia.
  - unfold tlim. rewrite Hw.
    destruct (Z.eqb_spec (2 * p - (M + 1)) 0) as [?|_]; [lia|].
    assert (1 <= p / 2) by (apply Z.div_le_lower_bound; lia).
    assert (1 <= M / (2 * p - (M + 1))) by (apply Z.div_le_lower_bound; lia).
    eexists. split; [reflexivity|].
    rewrite Z.gtb_ltb.
    destruct (Z.ltb_spec (M / (2 * p - (M + 1))) (p / 2)); lia.
Qed.

(** When [2 * p] wraps to 0 the division has no value. *)
Lemma tlim_of_half_range M p : 0 < M -> 2 * p = M + 1 -> tlim M p = None.
Proof.
  intros HM H. unfold tlim, wrap. rewrite H, Z.mod_same by lia. reflexivity.
Qed.

Lemma past_stage_3 ULONG_MAX mpz_probab_prime_p p :
  (forall n reps, Z.prime n -> mpz_probab_prime_p n reps <> 0) ->
  Z.prime p -> p <> 2 -> p mod 4 <> 3 ->
  lucas_lehmer_path ULONG_MAX mpz_probab_prime_p p =
  trial_stage ULONG_MAX p (mersenne p).
Proof.
  intros Hpp Hp H2 H4. rewrite (path_of_prime _ _ Hpp) by assumption.
  unfold special_factor.
  destruct (Z.eqb_spec (p mod 4) 3) as [?|_]; [contradiction|].
  rewrite andb_false_r. reflexivity.
Qed.

(** C2, on the code.  With a 32-bit [unsigned long], the prime exponent
    [p = 2147483713 = 2^31 + 65] reaches line 107; there [2 * p] wraps to
    130, [tlim] is [4294967295 / 130 = 33038209] where the overflow-free
    bound [min (p / 2, ULONG_MAX / (2p))] is 0, and the first candidate of
    the loop is 131 and not [2 * p + 1 = 4294967427].  The same happens
    with 64 bits at [p = 2^63 + 29], and at [p = 2^31] and [p = 2^63] the
    divisor is 0. *)
Theorem C2_tlim_wraps :
  Z.prime 2147483713 /\
  lucas_lehmer_path (2 ^ 32 - 1) trial_probab_prime_p 2147483713 =
    trial_stage (2 ^ 32 - 1) 2147483713 (mersenne 2147483713) /\
  wrap (2 ^ 32 - 1) (2 * 2147483713) = 130 /\
  tlim (2 ^ 32 - 1) 2147483713 = Some 33038209 /\
  tlim_spec (2 ^ 32 - 1) 2147483713 = 0 /\
  trial_q (2 ^ 32 - 1) 2147483713 1 = 131 /\
  tlim (2 ^ 64 - 1) (2 ^ 63 + 29) = Some 318047311615681924 /\
  tlim_spec (2 ^ 64 - 1) (2 ^ 63 + 29) = 0 /\
  tlim (2 ^ 32 - 1) (2 ^ 31) = None /\
  tlim (2 ^ 64 - 1) (2 ^ 63) = None.
Proof.
  assert (Hp : Z.prime 2147483713) by prime_by_trial_division.
  split; [exact Hp|]. split.
  - apply past_stage_3.
    + exact trial_probab_prime_p_complete.
    + exact Hp.
    + discriminate.
    + vm_compute. discriminate.
  - vm_compute. repeat split; reflexivity.
Qed.

(** ** Stage 5: the loop and the cleared [t] *)

Lemma mersenne_pos p : 1 <= p -> 1 <= mersenne p.
Proof.
  intros Hp. unfold mersenne.
  assert (2 ^ 1 <= 2 ^ p) by (apply Z.pow_le_mono_r; lia).
  change (2 ^ 1) with 2 in *. lia.
Qed.

(** With [t] cleared, an iteration stops at line 125, whatever [V] is,
    and so does the loop when it has an iteration to make. *)
Lemma lucas_step_cleared p mp V : lucas_step p mp Cleared V = UsesCleared.
Proof. reflexivity. Qed.

Lemma lucas_loop_cleared p mp n V :
  lucas_loop p mp (S n) Cleared V = UsesCleared.
Proof. reflexivity. Qed.

(** From [p = 3] on the loop has an iteration to make. *)
Lemma lucas_lehmer_stage_from_3 M p mp :
  3 <= p -> lucas_lehmer_stage M p mp = UseAfterClear.
Proof.
  intros Hp. unfold lucas_lehmer_stage.
  destruct (Z.to_nat (p - 2)) as [|n] eqn:Hn; [lia|].
  rewrite lucas_loop_cleared. reflexivity.
Qed.

(** Below 3 it has none: [V] is still 4 at line 130. *)
Lemma lucas_lehmer_stage_below_3 M p mp :
  p < 3 ->
  lucas_lehmer_stage M p mp = if p =? M then Hang else ReturnLucasLehmer 4.
Proof.
  intros Hp. unfold lucas_lehmer_stage.
  destruct (Z.to_nat (p - 2)) as [|n] eqn:Hn; [reflexivity | lia].
Qed.

Lemma stage_5_reached M p mp :
  reached_lucas_lehmer (lucas_lehmer_stage M p mp) = true.
Proof.
  destruct (Z_lt_le_dec p 3) as [Hp|Hp].
  - rewrite lucas_lehmer_stage_below_3 by exact Hp.
    destruct (p =? M); reflexivity.
  - rewrite lucas_lehmer_stage_from_3 by exact Hp. reflexivity.
Qed.

(** C4, on the code.  For every exponent [p >= 3] that comes to stage 5,
    the loop over [k = 3..p] has at least one iteration, and an iteration
    with the cleared [t] stops at line 125 before [V] has a new value: the
    loop has no value after any number of iterations, where the claim has
    it go through the terms of the sequence, the first one being 14. *)
Theorem C4_loop_uses_cleared_t ULONG_MAX p mp :
  3 <= p ->
  (forall n V, lucas_loop p mp (S n) Cleared V = UsesCleared) /\
  lucas_lehmer_stage ULONG_MAX p mp = UseAfterClear /\
  (forall V, lucas_lehmer_stage ULONG_MAX p mp <> ReturnLucasLehmer V) /\
  return_value (lucas_lehmer_stage ULONG_MAX p mp) = None.
Proof.
  intros Hp. split; [intros n V; apply lucas_loop_cleared|].
  rewrite (lucas_lehmer_stage_from_3 ULONG_MAX p mp Hp).
  split; [reflexivity|]. split; [discriminate | reflexivity].
Qed.

Lemma C4_loop_uses_cleared_t_witness :
  lucas_loop 5 (mersenne 5) 1 Cleared 4 = UsesCleared /\
  lucas_lehmer_stage (2 ^ 64 - 1) 5 (mersenne 5) = UseAfterClear /\
  lucas_lehmer_ref 5 1 = 14.
Proof.
  destruct (C4_loop_uses_cleared_t (2 ^ 64 - 1) 5 (mersenne 5)) as (Hloop & Hstage & _).
  - lia.
  - split; [apply Hloop|]. split; [exact Hstage | reflexivity].
Defined.

(** *** The loop body on an initialised [t]

    What lines 123-128 compute when [t] holds an integer, which it does
    not in [lucas_lehmer]: the residue of [V^2 - 2] modulo [M_p]. *)

(** The [while] of line 128 ends, at the residue when it has run at all. *)
Lemma sub_while_enough fuel mp V :
  0 < mp -> V / mp <= Z.of_nat fuel ->
  sub_while (S fuel) mp V = Some (if V <? mp then V else V mod mp).
Proof.
  intros Hmp. revert V. induction fuel as [|fuel IH]; intros V Hfuel.
  - assert (V < mp).
    { destruct (Z_lt_le_dec V mp) as [?|Hge]; [assumption|].
      assert (1 <= V / mp) by (apply Z.div_le_lower_bound; lia). lia. }
    cbn [sub_while].
    destruct (Z.geb_spec V mp); [lia|].
    destruct (Z.ltb_spec V mp); [reflexivity | lia].
  - change (sub_while (S (S fuel)) mp V)
      with (if V >=? mp then sub_while (S fuel) mp (V - mp) else Some V).
    destruct (Z.geb_spec V mp) as [Hge|Hlt].
    + assert (Hq : (V - mp) / mp = V / mp - 1).
      { replace (V - mp) with (V + (-1) * mp) by lia.
        rewrite Z.div_add by lia. lia. }
      rewrite IH by lia.
      assert (Hm : (V - mp) mod mp = V mod mp).
      { replace (V - mp) with (V + (-1) * mp) by lia. apply Z.mod_add. lia. }
      destruct (Z.ltb_spec V mp); [lia|].
      destruct (Z.ltb_spec (V - mp) mp); [|exact (f_equal Some Hm)].
      rewrite <- Hm. rewrite Z.mod_small by lia. reflexivity.
    + destruct (Z.ltb_spec V mp); [reflexivity | lia].
Qed.

Lemma reduce_total mp V :
  0 < mp -> reduce mp V = Some (if V <? mp then V else V mod mp).
Proof.
  intros Hmp. unfold reduce. apply sub_while_enough; [assumption|].
  lia.
Qed.

(** Quotient plus remainder by [2^p] is congruent to the number itself
    modulo [2^p - 1], whatever its sign. *)
Lemma split_sum_congruent p X :
  1 <= p ->
  (Z.quot X (2 ^ p) + Z.rem X (2 ^ p)) mod mersenne p = X mod mersenne p.
Proof.
  intros Hp. pose proof (mersenne_pos p Hp) as Hm. unfold mersenne in *.
  rewrite (Z.quot_rem' X (2 ^ p)) at 3.
  replace (2 ^ p * Z.quot X (2 ^ p) + Z.rem X (2 ^ p))
    with (Z.quot X (2 ^ p) + Z.rem X (2 ^ p) + Z.quot X (2 ^ p) * (2 ^ p - 1))
    by ring.
  rewrite Z.mod_add by lia. reflexivity.
Qed.

Lemma lucas_step_initialised p t0 V :
  1 <= p -> 2 <= V * V ->
  lucas_step p (mersenne p) (Holds t0) V =
  Goes (Holds (Z.rem (V * V - 2) (2 ^ p))) ((V * V - 2) mod mersenne p).
Proof.
  intros Hp HV. pose proof (mersenne_pos p Hp) as Hm.
  unfold lucas_step, mpz_tdiv_r_2exp, mpz_tdiv_q_2exp. cbv zeta.
  rewrite reduce_total by lia. f_equal.
  set (X := V * V - 2).
  assert (0 < 2 ^ p) by (apply Z.pow_pos_nonneg; lia).
  assert (0 <= Z.quot X (2 ^ p)) by (apply Z.quot_pos; lia).
  assert (0 <= Z.rem X (2 ^ p)) by (apply Z.rem_nonneg; lia).
  rewrite <- (split_sum_congruent p X Hp).
  destruct (Z.ltb_spec (Z.quot X (2 ^ p) + Z.rem X (2 ^ p)) (mersenne p));
    [|reflexivity].
  rewrite Z.mod_small by lia. reflexivity.
Qed.

(** ** The starting exponent *)

Lemma strtoul_no_conversion ULONG_MAX nptr :
  no_conversion nptr = true -> strtoul ULONG_MAX nptr = 0.
Proof.
  unfold no_conversion, strtoul.
  destruct (strip_sign (skip_spaces nptr)) as [neg s]. cbn [snd].
  destruct s as [|c s]; [reflexivity|].
  intros Hc. cbn [read_digits].
  apply negb_true_iff in Hc. rewrite Hc. reflexivity.
Qed.

(** C9, as it holds.  Without an argument the search starts at 1.  With
    one, it starts at what [strtoul] makes of it, and that is 0, not 1,
    when the argument cannot be parsed. *)
Theorem C9_starting_exponent ULONG_MAX :
  main_start ULONG_MAX [] = 1 /\
  (forall prog, main_start ULONG_MAX [prog] = 1) /\
  (forall prog arg rest,
     main_start ULONG_MAX (prog :: arg :: rest) = strtoul ULONG_MAX arg) /\
  (forall prog arg rest,
     no_conversion arg = true ->
     main_start ULONG_MAX (prog :: arg :: rest) = 0).
Proof.
  split; [reflexivity|]. split; [reflexivity|]. split; [reflexivity|].
  intros prog arg rest Harg. cbn [main_start].
  apply strtoul_no_conversion. exact Harg.
Qed.

Lemma C9_starting_exponent_witness :
  main_start (2 ^ 64 - 1) ["prime11"; ""]%string = 0.
Proof.
  destruct (C9_starting_exponent (2 ^ 64 - 1)) as (_ & _ & _ & H).
  apply H. reflexivity.
Defined.

(** C9 as it is worded fails on the command line [prime11 abc]: the
    argument is not an unsigned integer, and the search starts at 0. *)
Lemma C9_counterexample :
  no_conversion "abc" = true /\
  main_start (2 ^ 64 - 1) ["prime11"; "abc"]%string = 0 /\
  main_start (2 ^ 64 - 1) ["prime11"; "abc"]%string <> 1.
Proof. split; [reflexivity|]. split; [reflexivity | discriminate]. Qed.

(** What [strtoul] makes of other arguments: leading white space and a sign
    are accepted, trailing characters are ignored, a negative number wraps
    around, and a number that is too large becomes [ULONG_MAX]. *)
Lemma start_examples :
  main_start (2 ^ 64 - 1) ["prime11"; "127"]%string = 127 /\
  main_start (2 ^ 64 - 1) ["prime11"; " +31 "]%string = 31 /\
  main_start (2 ^ 64 - 1) ["prime11"; "12x"]%string = 12 /\
  main_start (2 ^ 64 - 1) ["prime11"; "-1"]%string = 2 ^ 64 - 1 /\
  main_start (2 ^ 64 - 1) ["prime11"; "99999999999999999999"]%string = 2 ^ 64 - 1.
Proof. repeat split; reflexivity. Qed.

(** ** The task queue: the statements under the mutex *)

Import TQ.

Lemma next_slot i C : 0 < C -> 0 <= i < C -> Z.rem (i + 1) C = (i + 1) mod C.
Proof. intros HC Hi. apply Z.rem_mod_nonneg; lia. Qed.

Lemma next_slot_range i C : 0 < C -> 0 <= i < C -> 0 <= Z.rem (i + 1) C < C.
Proof. intros HC Hi. apply Z.rem_bound_pos; lia. Qed.

Lemma ahead_differs i k C :
  0 <= i < C -> 0 < k < C -> (i + k) mod C <> i.
Proof.
  intros Hi Hk.
  destruct (Z_lt_le_dec (i + k) C) as [Hlt|Hge].
  - rewrite Z.mod_small by lia. lia.
  - replace (i + k) with (i + k - C + 1 * C) by lia.
    rewrite Z.mod_add by lia. rewrite Z.mod_small by lia. lia.
Qed.

Lemma slot_exists (ts : list ThreadData) C i :
  Z.of_nat (length ts) = C -> 0 <= i < C -> is_Some (ts !! Z.to_nat i).
Proof. intros Hlen Hi. apply lookup_lt_is_Some_2. lia. Qed.

Lemma read_slots_S (ts : list ThreadData) C i n :
  read_slots ts C i (S n) =
  match ts !! Z.to_nat i with
  | Some x => x :: read_slots ts C (Z.rem (i + 1) C) n
  | None => []
  end.
Proof. reflexivity. Qed.

(** Writing [n] slots ahead of [i] leaves the [n] slots from [i] on as
    they are and makes the written value the next one. *)
Lemma read_slots_insert (ts : list ThreadData) C i n data :
  0 < C -> Z.of_nat (length ts) = C -> 0 <= i < C -> Z.of_nat n < C ->
  read_slots (<[Z.to_nat ((i + Z.of_nat n) mod C) := data]> ts) C i (S n)
  = read_slots ts C i n ++ [data].
Proof.
  intros HC Hlen. revert i. induction n as [|n IH]; intros i Hi Hn.
  - rewrite Z.add_0_r, Z.mod_small by lia. cbn [read_slots].
    rewrite list_lookup_insert_eq by lia. reflexivity.
  - set (t := (i + Z.of_nat (S n)) mod C).
    assert (Ht : 0 <= t < C) by (apply Z.mod_pos_bound; lia).
    assert (Hne : t <> i) by (apply ahead_differs; lia).
    rewrite (read_slots_S _ C i (S n)), (read_slots_S ts C i n).
    rewrite list_lookup_insert_ne by lia.
    destruct (slot_exists ts C i Hlen Hi) as [x Hx]. rewrite Hx.
    assert (Hi' := next_slot_range i C HC Hi).
    assert (Ht' : t = (Z.rem (i + 1) C + Z.of_nat n) mod C).
    { rewrite next_slot by lia. rewrite Zplus_mod_idemp_l.
      unfold t. f_equal. lia. }
    rewrite Ht'. rewrite IH by lia. reflexivity.
Qed.

Lemma well_formed_init mem C :
  0 < C -> Z.of_nat (length mem) = C -> well_formed C (init_queue mem C).
Proof.
  intros HC Hlen. unfold well_formed, init_queue. cbn.
  repeat split; lia.
Qed.

(** Lines 57-61 on a queue that is not full. *)
Lemma enqueue_locked_spec C q data :
  well_formed C q -> count q < C ->
  exists q', enqueue_locked q data = Done q' /\
    well_formed C q' /\
    tasks q' = <[Z.to_nat (tail q) := data]> (tasks q) /\
    head q' = head q /\ tail q' = (tail q + 1) mod C /\
    count q' = count q + 1 /\
    sem_empty q' = sem_empty q /\ sem_full q' = sem_full q /\
    pending q' = pending q ++ [data].
Proof.
  intros (HC & Hmax & Hlen & Hhead & Htail & Hcount & Htl) Hroom.
  unfold enqueue_locked, array_set, in_bounds, next_index.
  destruct (Z.leb_spec 0 (tail q)) as [_|?]; [|lia].
  destruct (Z.ltb_spec (tail q) (Z.of_nat (length (tasks q)))) as [_|?]; [|lia].
  destruct (Z.eqb_spec (max_tasks q) 0) as [?|_]; [lia|].
  cbn. eexists. split; [reflexivity|]. cbn.
  rewrite Hmax.
  assert (Hnext := next_slot_range (tail q) C HC Htail).
  assert (Hnext' := next_slot (tail q) C HC Htail).
  split.
  { unfold well_formed. cbn. rewrite length_insert.
    repeat split; try lia.
    rewrite Hnext', Htl, Zplus_mod_idemp_l. f_equal. lia. }
  repeat split; try assumption.
  unfold pending. cbn. rewrite Hmax.
  replace (Z.to_nat (count q + 1)) with (S (Z.to_nat (count q))) by lia.
  rewrite Htl. replace (count q) with (Z.of_nat (Z.to_nat (count q))) at 1 by lia.
  apply read_slots_insert; lia.
Qed.

(** Lines 67-71 on a queue that is not empty. *)
Lemma dequeue_locked_spec C q :
  well_formed C q -> 0 < count q ->
  exists data q', dequeue_locked q = Done (data, q') /\
    well_formed C q' /\
    tasks q !! Z.to_nat (head q) = Some data /\
    tasks q' = tasks q /\
    head q' = (head q + 1) mod C /\ tail q' = tail q /\
    count q' = count q - 1 /\
    sem_empty q' = sem_empty q /\ sem_full q' = sem_full q /\
    pending q = data :: pending q'.
Proof.
  intros (HC & Hmax & Hlen & Hhead & Htail & Hcount & Htl) Hsome.
  unfold dequeue_locked, array_get, in_bounds, next_index.
  destruct (Z.leb_spec 0 (head q)) as [_|?]; [|lia].
  destruct (Z.ltb_spec (head q) (Z.of_nat (length (tasks q)))) as [_|?]; [|lia].
  destruct (Z.eqb_spec (max_tasks q) 0) as [?|_]; [lia|].
  destruct (slot_exists (tasks q) C (head q) Hlen Hhead) as [data Hdata].
  rewrite Hdata. cbn. exists data. eexists. split; [reflexivity|]. cbn.
  rewrite Hmax.
  assert (Hnext := next_slot_range (head q) C HC Hhead).
  assert (Hnext' := next_slot (head q) C HC Hhead).
  split.
  { unfold well_formed. cbn.
    repeat split; try lia.
    rewrite Hnext', Htl, Zplus_mod_idemp_l. f_equal. lia. }
  repeat split; try assumption.
  unfold pending. cbn. rewrite Hmax.
  replace (Z.to_nat (count q)) with (S (Z.to_nat (count q - 1))) by lia.
  cbn [read_slots]. rewrite Hdata. reflexivity.
Qed.

(** The slot at [tail] is free unless the queue is full, and the slot at
    [head] is occupied unless it is empty. *)
Lemma tail_is_free C q :
  well_formed C q -> occupied q (tail q) = negb (count q <? C).
Proof.
  intros (HC & Hmax & Hlen & Hhead & Htail & Hcount & Htl).
  unfold occupied. rewrite Hmax.
  assert (0 <= (head q + count q) mod C < C) by (apply Z.mod_pos_bound; lia).
  rewrite Z.rem_mod_nonneg by lia.
  rewrite Htl.
  replace ((head q + count q) mod C - head q + C)
    with ((head q + count q) mod C - head q + 1 * C) by lia.
  rewrite Z.mod_add by lia. rewrite Zminus_mod_idemp_l.
  replace (head q + count q - head q) with (count q) by lia.
  destruct (Z.ltb_spec (count q) C) as [Hlt|Hge]; cbn [negb].
  - rewrite Z.mod_small by lia. apply Z.ltb_ge. lia.
  - assert (Hfull : count q = C) by lia.
    rewrite Hfull at 1. rewrite Z.mod_same by lia.
    apply Z.ltb_lt. lia.
Qed.

Lemma head_is_occupied C q :
  well_formed C q -> occupied q (head q) = (0 <? count q).
Proof.
  intros (HC & Hmax & Hlen & Hhead & Htail & Hcount & Htl).
  unfold occupied. rewrite Hmax.
  replace (head q - head q + C) with C by lia.
  rewrite Z.rem_mod_nonneg by lia. rewrite Z.mod_same by lia. reflexivity.
Qed.

Lemma pending_length C q :
  well_formed C q -> Z.of_nat (length (pending q)) = count q.
Proof.
  intros (HC & Hmax & Hlen & Hhead & Htail & Hcount & Htl).
  unfold pending. rewrite Hmax.
  assert (Hn : forall n i, 0 <= i < C ->
            length (read_slots (tasks q) C i n) = n).
  { induction n as [|n IH]; intros i Hi; [reflexivity|].
    cbn [read_slots].
    destruct (slot_exists (tasks q) C i Hlen Hi) as [x ->].
    cbn [length]. rewrite IH by (apply next_slot_range; lia). reflexivity. }
  rewrite Hn by lia. lia.
Qed.

(** ** The task queue: calls that run one after the other *)

Lemma quiescent_init mem C :
  0 < C -> Z.of_nat (length mem) = C -> quiescent C (init_queue mem C).
Proof.
  intros HC Hlen. split; [apply well_formed_init; assumption|].
  cbn. lia.
Qed.

(** [enqueue] waits exactly when the queue holds [C] values; otherwise it
    stores its argument in the free slot at [tail]. *)
Lemma enqueue_spec C q data :
  quiescent C q ->
  if count q <? C
  then exists q', enqueue q data = Done q' /\
         quiescent C q' /\
         tasks q' = <[Z.to_nat (tail q) := data]> (tasks q) /\
         head q' = head q /\ tail q' = (tail q + 1) mod C /\
         count q' = count q + 1 /\
         pending q' = pending q ++ [data]
  else enqueue q data = Blocks.
Proof.
  intros (Hwf & Hempty & Hfull).
  unfold enqueue, enqueue_wait, sem_wait. rewrite Hempty.
  destruct (Z.ltb_spec (count q) C) as [Hroom|Hnone].
  - destruct (Z.ltb_spec 0 (C - count q)) as [_|?]; [|lia]. cbn.
    set (q1 := {| tasks := tasks q; max_tasks := max_tasks q; head := head q;
                  tail := tail q; count := count q;
                  sem_empty := C - count q - 1; sem_full := sem_full q |}).
    destruct (enqueue_locked_spec C q1 data Hwf Hroom)
      as (q2 & -> & Hwf2 & Hts & Hh & Ht & Hc & He & Hf & Hp).
    cbn in *. eexists. split; [reflexivity|].
    unfold quiescent, enqueue_post, sem_post. cbn.
    split; [split; [exact Hwf2 | lia]|].
    repeat split; assumption.
  - destruct (Z.ltb_spec 0 (C - count q)) as [?|_]; [lia|]. reflexivity.
Qed.

(** [dequeue] waits exactly when the queue is empty; otherwise it returns
    the value of the occupied slot at [head]. *)
Lemma dequeue_spec C q :
  quiescent C q ->
  if 0 <? count q
  then exists data q', dequeue q = Done (data, q') /\
         quiescent C q' /\
         tasks q !! Z.to_nat (head q) = Some data /\
         tasks q' = tasks q /\
         head q' = (head q + 1) mod C /\ tail q' = tail q /\
         count q' = count q - 1 /\
         pending q = data :: pending q'
  else dequeue q = Blocks.
Proof.
  intros (Hwf & Hempty & Hfull).
  unfold dequeue, dequeue_wait, sem_wait. rewrite Hfull.
  destruct (Z.ltb_spec 0 (count q)) as [Hsome|Hnone]; [|reflexivity]. cbn.
  set (q1 := {| tasks := tasks q; max_tasks := max_tasks q; head := head q;
                tail := tail q; count := count q;
                sem_empty := sem_empty q; sem_full := count q - 1 |}).
  destruct (dequeue_locked_spec C q1 Hwf Hsome)
    as (data & q2 & -> & Hwf2 & Hd & Hts & Hh & Ht & Hc & He & Hf & Hp).
  cbn in *. exists data. eexists. split; [reflexivity|].
  unfold quiescent, dequeue_post, sem_post. cbn.
  split; [split; [exact Hwf2 | lia]|].
  repeat split; assumption.
Qed.

(** A sequence of calls, none of which waits, from a queue at rest: the
    queue stays well formed, and the values that were pending, followed by
    the values enqueued, are the values dequeued followed by the values
    that are pending at the end. *)
Lemma run_fifo C ops : forall q q' out,
  quiescent C q -> run ops q = Done (q', out) ->
  quiescent C q' /\ pending q ++ enqueued ops = out ++ pending q'.
Proof.
  induction ops as [|[data|] ops IH]; intros q q' out Hq Hrun.
  - cbn in Hrun. injection Hrun as <- <-. split; [assumption|].
    cbn. rewrite app_nil_r. reflexivity.
  - cbn [run] in Hrun. pose proof (enqueue_spec C q data Hq) as Henq.
    destruct (count q <? C).
    + destruct Henq as (q1 & E & Hq1 & _ & _ & _ & _ & Hp). rewrite E in Hrun.
      cbn in Hrun. destruct (IH q1 q' out Hq1 Hrun) as [Hq' Hfifo].
      split; [assumption|]. cbn [enqueued].
      rewrite <- Hfifo, Hp, <- app_assoc. reflexivity.
    + rewrite Henq in Hrun. discriminate.
  - cbn [run] in Hrun. pose proof (dequeue_spec C q Hq) as Hdeq.
    destruct (0 <? count q).
    + destruct Hdeq as (data & q1 & E & Hq1 & _ & _ & _ & _ & _ & Hp).
      rewrite E in Hrun. cbn in Hrun.
      destruct (run ops q1) as [[q2 out']| |] eqn:Erest; try discriminate.
      cbn in Hrun. injection Hrun as <- <-.
      destruct (IH q1 q2 out' Hq1 Erest) as [Hq' Hfifo].
      split; [assumption|]. cbn [enqueued].
      rewrite Hp. cbn. rewrite Hfifo. reflexivity.
    + rewrite Hdeq in Hrun. discriminate.
Qed.

(** Every pending value comes out: [count] calls of [dequeue] do not wait
    and return the pending values in order, leaving the queue empty. *)
Lemma run_drain C : forall n q,
  quiescent C q -> count q = Z.of_nat n ->
  exists q', run (replicate n Dequeue) q = Done (q', pending q) /\
             quiescent C q' /\ count q' = 0 /\ pending q' = [].
Proof.
  induction n as [|n IH]; intros q Hq Hn.
  - exists q. cbn [replicate run]. unfold pending. rewrite Hn, Nat2Z.id.
    split; [reflexivity | split; [exact Hq | split; reflexivity]].
  - pose proof (dequeue_spec C q Hq) as Hdeq.
    destruct (Z.ltb_spec 0 (count q)) as [_|?]; [|lia].
    destruct Hdeq as (data & q1 & E & Hq1 & _ & _ & _ & _ & Hc & Hp).
    destruct (IH q1 Hq1 ltac:(lia)) as (q' & Hrun & Hq' & Hc' & Hp').
    exists q'. cbn [replicate run]. rewrite E. cbn. rewrite Hrun. cbn.
    rewrite Hp. split; [reflexivity | split; [exact Hq' | split; assumption]].
Qed.

(** C3. In any sequence of [enqueue] and [dequeue] calls on a queue of
    capacity [C], none of which has to wait, the values dequeued are, in
    order, the first of the values enqueued; the others are the pending
    values, in order, and [dequeue] calls return every one of them, once. *)
Theorem C3_fifo mem C ops q out :
  0 < C -> Z.of_nat (length mem) = C ->
  run ops (init_queue mem C) = Done (q, out) ->
  enqueued ops = out ++ pending q /\
  exists q', run (replicate (length (pending q)) Dequeue) q
               = Done (q', pending q) /\
             pending q' = [].
Proof.
  intros HC Hlen Hrun.
  destruct (run_fifo C ops _ _ _ (quiescent_init mem C HC Hlen) Hrun)
    as [Hq Hfifo].
  split; [exact Hfifo|].
  pose proof (pending_length C q (proj1 Hq)) as Hpl.
  destruct (run_drain C (length (pending q)) q Hq (eq_sym Hpl))
    as (q' & Hdrain & _ & _ & Hp').
  exists q'. split; assumption.
Qed.

Lemma C3_fifo_witness :
  let d := fun n => {| p := n |} in
  let ops := [Enqueue (d 2); Enqueue (d 3); Dequeue; Enqueue (d 5);
              Dequeue; Enqueue (d 7); Dequeue] in
  exists q out,
    run ops (init_queue [d 0; d 0] 2) = Done (q, out) /\
    out = [d 2; d 3; d 5] /\
    enqueued ops = out ++ pending q.
Proof.
  intros d ops. eexists. eexists.
  split; [vm_compute; reflexivity|]. split; [reflexivity|].
  refine (proj1 (C3_fifo [d 0; d 0] 2 ops _ _ _ _ _)).
  - lia.
  - reflexivity.
  - vm_compute. reflexivity.
Defined.

(** C7. After any sequence of [enqueue] and [dequeue] calls from
    [init_queue], none of which has to wait: [count] is between 0 and the
    capacity [C = max_tasks] and is the number of values enqueued and not
    yet dequeued, [head] and [tail] are indices of the buffer, a further
    [enqueue] moves [tail] to [(tail + 1) mod C] and leaves [head], and a
    further [dequeue] moves [head] to [(head + 1) mod C] and leaves
    [tail]. *)
Theorem C7_queue_invariant mem C ops q out :
  0 < C -> Z.of_nat (length mem) = C ->
  run ops (init_queue mem C) = Done (q, out) ->
  max_tasks q = C /\ 0 <= count q <= C /\
  0 <= head q < C /\ 0 <= tail q < C /\
  tail q = (head q + count q) mod C /\
  count q = Z.of_nat (length (enqueued ops)) - Z.of_nat (length out) /\
  (forall data q', enqueue q data = Done q' ->
     tail q' = (tail q + 1) mod C /\ head q' = head q /\
     count q' = count q + 1) /\
  (forall data q', dequeue q = Done (data, q') ->
     head q' = (head q + 1) mod C /\ tail q' = tail q /\
     count q' = count q - 1).
Proof.
  intros HC Hlen Hrun.
  destruct (run_fifo C ops _ _ _ (quiescent_init mem C HC Hlen) Hrun)
    as [Hq Hfifo].
  pose proof (pending_length C q (proj1 Hq)) as Hpl.
  pose proof Hq as ((_ & Hmax & _ & Hhead & Htail & Hcount & Htl) & _ & _).
  repeat (split; [assumption|]).
  split.
  { change (pending (init_queue mem C)) with (@nil ThreadData) in Hfifo.
    cbn [app] in Hfifo. rewrite Hfifo, length_app. lia. }
  split.
  - intros data q' Henq. pose proof (enqueue_spec C q data Hq) as Hspec.
    destruct (count q <? C).
    + destruct Hspec as (q1 & E & _ & _ & Hh & Ht & Hc & _).
      rewrite E in Henq. injection Henq as <-. repeat split; assumption.
    + rewrite Hspec in Henq. discriminate.
  - intros data q' Hdeq. pose proof (dequeue_spec C q Hq) as Hspec.
    destruct (0 <? count q).
    + destruct Hspec as (d1 & q1 & E & _ & _ & _ & Hh & Ht & Hc & _).
      rewrite E in Hdeq. injection Hdeq as <- <-. repeat split; assumption.
    + rewrite Hspec in Hdeq. discriminate.
Qed.

Lemma C7_queue_invariant_witness :
  let d := fun n => {| p := n |} in
  let ops := [Enqueue (d 2); Enqueue (d 3); Dequeue; Enqueue (d 5)] in
  exists q out,
    run ops (init_queue [d 0; d 0] 2) = Done (q, out) /\
    count q = 2 /\ head q = 1 /\ tail q = 1 /\
    0 <= count q <= 2.
Proof.
  intros d ops. eexists. eexists.
  split; [vm_compute; reflexivity|].
  split; [reflexivity|]. split; [reflexivity|]. split; [reflexivity|].
  refine (proj1 (proj2 (C7_queue_invariant [d 0; d 0] 2 ops _ _ _ _ _))).
  - lia.
  - reflexivity.
  - vm_compute. reflexivity.
Defined.

(** ** The task queue: calls of several threads *)

Lemma tally_nonneg f l : 0 <= tally f l.
Proof. induction l as [|x l IH]; cbn [tally]; [lia | destruct (f x); lia]. Qed.

Lemma tally_lookup f l i x :
  l !! i = Some x -> f x = true -> 1 <= tally f l.
Proof.
  revert i. induction l as [|y l IH]; intros [|i] Hi Hf; try discriminate.
  - cbn in Hi. injection Hi as ->. cbn [tally]. rewrite Hf.
    pose proof (tally_nonneg f l). lia.
  - cbn in Hi. cbn [tally]. pose proof (IH i Hi Hf). destruct (f y); lia.
Qed.

Lemma tally_insert f l i x y :
  l !! i = Some x ->
  tally f (<[i := y]> l)
  = tally f l - (if f x then 1 else 0) + (if f y then 1 else 0).
Proof.
  revert i. induction l as [|z l IH]; intros [|i] Hi; try discriminate.
  - cbn in Hi. injection Hi as ->.
    change (<[0%nat := y]> (x :: l)) with (y :: l). cbn [tally]. lia.
  - cbn in Hi.
    change (<[S i := y]> (z :: l)) with (z :: <[i := y]> l).
    cbn [tally]. rewrite (IH i Hi). lia.
Qed.

Lemma tally_at_rest f n : f AtRest = false -> tally f (replicate n AtRest) = 0.
Proof.
  intros Hf. induction n as [|n IH]; [reflexivity|].
  cbn. rewrite Hf, IH. reflexivity.
Qed.

Lemma balanced_boot mem C n :
  0 < C -> Z.of_nat (length mem) = C -> balanced C (boot mem C n).
Proof.
  intros HC Hlen. unfold balanced, boot. cbn.
  rewrite !tally_at_rest by reflexivity.
  split; [apply well_formed_init; assumption|].
  repeat split; lia.
Qed.

(** A thread that has passed [sem_wait (&sem_empty)] finds a queue that is
    not full, and one that has passed [sem_wait (&sem_full)] a queue that
    is not empty. *)
Lemma room_at_57 C s i data :
  balanced C s -> threads s !! i = Some (Enq57 data) -> count (queue s) < C.
Proof.
  intros (_ & He & _ & Hempty & _) Hi.
  pose proof (tally_lookup at57 _ _ _ Hi eq_refl).
  pose proof (tally_nonneg at72 (threads s)). lia.
Qed.

Lemma value_at_67 C s i :
  balanced C s -> threads s !! i = Some Deq67 -> 0 < count (queue s).
Proof.
  intros (_ & _ & Hf & _ & Hfull & _) Hi.
  pose proof (tally_lookup at67 _ _ _ Hi eq_refl).
  pose proof (tally_nonneg at62 (threads s)). lia.
Qed.

Ltac tally_after Hi :=
  cbn [queue threads stored loaded];
  rewrite !(tally_insert _ _ _ _ _ Hi); cbn [at57 at62 at67 at72].

(** Every step keeps the balance between the semaphores, the threads
    inside a call and [count], and the order of the values. *)
Lemma move_balanced C i c s s' :
  balanced C s -> move i c s = Done s' -> balanced C s'.
Proof.
  intros Hs Hmove.
  pose proof Hs as (Hwf & He & Hf & Hempty & Hfull & Hfifo).
  unfold move in Hmove.
  destruct (threads s !! i) as [[|data| | |data]|] eqn:Hi; [| | | | |discriminate].
  - destruct c as [data|].
    + unfold enqueue_wait, sem_wait in Hmove.
      destruct (Z.ltb_spec 0 (sem_empty (queue s))); [|discriminate].
      cbn in Hmove. injection Hmove as <-.
      unfold balanced. tally_after Hi. cbn.
      split; [exact Hwf|]. repeat split; try lia. exact Hfifo.
    + unfold dequeue_wait, sem_wait in Hmove.
      destruct (Z.ltb_spec 0 (sem_full (queue s))); [|discriminate].
      cbn in Hmove. injection Hmove as <-.
      unfold balanced. tally_after Hi. cbn.
      split; [exact Hwf|]. repeat split; try lia. exact Hfifo.
  - pose proof (room_at_57 C s i data Hs Hi) as Hroom.
    destruct (enqueue_locked_spec C (queue s) data Hwf Hroom)
      as (q' & E & Hwf' & _ & _ & _ & Hc & He' & Hf' & Hp).
    rewrite E in Hmove. cbn in Hmove. injection Hmove as <-.
    unfold balanced. tally_after Hi.
    split; [exact Hwf'|]. rewrite He', Hf', Hc, Hp.
    repeat split; try lia. rewrite Hfifo, app_assoc. reflexivity.
  - injection Hmove as <-.
    unfold balanced. tally_after Hi. unfold enqueue_post, sem_post. cbn.
    split; [exact Hwf|]. repeat split; try lia. exact Hfifo.
  - pose proof (value_at_67 C s i Hs Hi) as Hsome.
    destruct (dequeue_locked_spec C (queue s) Hwf Hsome)
      as (data & q' & E & Hwf' & _ & _ & _ & _ & Hc & He' & Hf' & Hp).
    rewrite E in Hmove. cbn in Hmove. injection Hmove as <-.
    unfold balanced. tally_after Hi.
    split; [exact Hwf'|]. rewrite He', Hf', Hc.
    repeat split; try lia. rewrite Hfifo, Hp, <- app_assoc. reflexivity.
  - injection Hmove as <-.
    unfold balanced. tally_after Hi. unfold dequeue_post, sem_post. cbn.
    split; [exact Hwf|]. repeat split; try lia. exact Hfifo.
Qed.

Lemma exec_balanced C sched : forall s s',
  balanced C s -> exec sched s = Done s' -> balanced C s'.
Proof.
  induction sched as [|[i c] sched IH]; intros s s' Hs Hexec.
  - cbn in Hexec. injection Hexec as <-. exact Hs.
  - cbn [exec] in Hexec.
    destruct (move i c s) as [s1| |] eqn:Hmove; try discriminate.
    cbn in Hexec. exact (IH s1 s' (move_balanced C i c s s1 Hs Hmove) Hexec).
Qed.

(** Without the [sem_post] of a [dequeue], [sem_empty] does not grow, and
    without the [sem_post] of an [enqueue], [sem_full] does not grow. *)
Lemma sem_empty_until sched : forall s s',
  exec sched s = Done s' -> frees_slot sched s = false ->
  sem_empty (queue s') <= sem_empty (queue s).
Proof.
  induction sched as [|[i c] sched IH]; intros s s' Hexec Hfree.
  - cbn in Hexec. injection Hexec as <-. lia.
  - cbn [exec] in Hexec. cbn [frees_slot] in Hfree.
    destruct (move i c s) as [s1| |] eqn:Hmove; try discriminate.
    cbn in Hexec.
    assert (Hstep : sem_empty (queue s1) <= sem_empty (queue s)
                    /\ frees_slot sched s1 = false).
    { unfold move in Hmove.
      destruct (threads s !! i) as [[|data| | |data]|]; try discriminate.
      - destruct c as [data|].
        + unfold enqueue_wait, sem_wait in Hmove.
          destruct (0 <? sem_empty (queue s)); [|discriminate].
          cbn in Hmove. injection Hmove as <-. cbn. split; [lia | exact Hfree].
        + unfold dequeue_wait, sem_wait in Hmove.
          destruct (0 <? sem_full (queue s)); [|discriminate].
          cbn in Hmove. injection Hmove as <-. cbn. split; [lia | exact Hfree].
      - unfold enqueue_locked in Hmove.
        destruct (array_set _ _ _) as [ts| |]; try discriminate.
        destruct (next_index _ _) as [t| |]; try discriminate.
        cbn in Hmove. injection Hmove as <-. cbn. split; [lia | exact Hfree].
      - injection Hmove as <-. cbn. split; [lia | exact Hfree].
      - unfold dequeue_locked in Hmove.
        destruct (array_get _ _) as [d| |]; try discriminate.
        destruct (next_index _ _) as [h| |]; try discriminate.
        cbn in Hmove. injection Hmove as <-. cbn. split; [lia | exact Hfree]. }
    destruct Hstep as [Hle Hfree1]. pose proof (IH s1 s' Hexec Hfree1). lia.
Qed.

Lemma sem_full_until sched : forall s s',
  exec sched s = Done s' -> announces_value sched s = false ->
  sem_full (queue s') <= sem_full (queue s).
Proof.
  induction sched as [|[i c] sched IH]; intros s s' Hexec Hann.
  - cbn in Hexec. injection Hexec as <-. lia.
  - cbn [exec] in Hexec. cbn [announces_value] in Hann.
    destruct (move i c s) as [s1| |] eqn:Hmove; try discriminate.
    cbn in Hexec.
    assert (Hstep : sem_full (queue s1) <= sem_full (queue s)
                    /\ announces_value sched s1 = false).
    { unfold move in Hmove.
      destruct (threads s !! i) as [[|data| | |data]|]; try discriminate.
      - destruct c as [data|].
        + unfold enqueue_wait, sem_wait in Hmove.
          destruct (0 <? sem_empty (queue s)); [|discriminate].
          cbn in Hmove. injection Hmove as <-. cbn. split; [lia | exact Hann].
        + unfold dequeue_wait, sem_wait in Hmove.
          destruct (0 <? sem_full (queue s)); [|discriminate].
          cbn in Hmove. injection Hmove as <-. cbn. split; [lia | exact Hann].
      - unfold enqueue_locked in Hmove.
        destruct (array_set _ _ _) as [ts| |]; try discriminate.
        destruct (next_index _ _) as [t| |]; try discriminate.
        cbn in Hmove. injection Hmove as <-. cbn. split; [lia | exact Hann].
      - unfold dequeue_locked in Hmove.
        destruct (array_get _ _) as [d| |]; try discriminate.
        destruct (next_index _ _) as [h| |]; try discriminate.
        cbn in Hmove. injection Hmove as <-. cbn. split; [lia | exact Hann].
      - injection Hmove as <-. cbn. split; [lia | exact Hann]. }
    destruct Hstep as [Hle Hann1]. pose proof (IH s1 s' Hexec Hann1). lia.
Qed.

Lemma enqueue_call_waits s i data :
  threads s !! i = Some AtRest -> sem_empty (queue s) <= 0 ->
  move i (CallEnqueue data) s = Blocks.
Proof.
  intros Hi He. unfold move. rewrite Hi. unfold enqueue_wait, sem_wait.
  destruct (Z.ltb_spec 0 (sem_empty (queue s))); [lia | reflexivity].
Qed.

Lemma dequeue_call_waits s i :
  threads s !! i = Some AtRest -> sem_full (queue s) <= 0 ->
  move i CallDequeue s = Blocks.
Proof.
  intros Hi Hf. unfold move. rewrite Hi. unfold dequeue_wait, sem_wait.
  destruct (Z.ltb_spec 0 (sem_full (queue s))); [lia | reflexivity].
Qed.

(** C8. In any state that threads calling [enqueue] and [dequeue] can
    reach from [init_queue], whatever the interleaving of their steps:
    - when the queue holds [C] values, a call of [enqueue] waits, no thread
      is about to write, and this remains so in every later state reached
      without the [sem_post] of a [dequeue];
    - when the queue is empty, a call of [dequeue] waits, no thread is
      about to read, and this remains so in every later state reached
      without the [sem_post] of an [enqueue];
    - the write of line 58 goes to a slot that is not occupied and leaves
      the pending values as they are;
    - the read of line 68 takes an occupied slot, the oldest pending
      value. *)
Theorem C8_back_pressure mem C n sched s :
  0 < C -> Z.of_nat (length mem) = C ->
  exec sched (boot mem C n) = Done s ->
  (count (queue s) = C ->
     (forall i data, threads s !! i <> Some (Enq57 data)) /\
     forall later s', exec later s = Done s' -> frees_slot later s = false ->
       forall i data, threads s' !! i = Some AtRest ->
         move i (CallEnqueue data) s' = Blocks) /\
  (count (queue s) = 0 ->
     (forall i, threads s !! i <> Some Deq67) /\
     forall later s', exec later s = Done s' -> announces_value later s = false ->
       forall i, threads s' !! i = Some AtRest ->
         move i CallDequeue s' = Blocks) /\
  (forall i c data, threads s !! i = Some (Enq57 data) ->
     occupied (queue s) (tail (queue s)) = false /\
     exists s', move i c s = Done s' /\
       tasks (queue s') = <[Z.to_nat (tail (queue s)) := data]> (tasks (queue s)) /\
       pending (queue s') = pending (queue s) ++ [data]) /\
  (forall i c, threads s !! i = Some Deq67 ->
     occupied (queue s) (head (queue s)) = true /\
     exists data s', move i c s = Done s' /\
       threads s' !! i = Some (Deq72 data) /\
       pending (queue s) = data :: pending (queue s')).
Proof.
  intros HC Hlen Hexec.
  pose proof (exec_balanced C sched _ _ (balanced_boot mem C n HC Hlen) Hexec)
    as Hs.
  pose proof Hs as (Hwf & He & Hf & Hempty & Hfull & Hfifo).
  pose proof (tally_nonneg at57 (threads s)).
  pose proof (tally_nonneg at62 (threads s)).
  pose proof (tally_nonneg at67 (threads s)).
  pose proof (tally_nonneg at72 (threads s)).
  split; [|split; [|split]].
  - intros Hfull_queue. split.
    + intros i data Hi. pose proof (room_at_57 C s i data Hs Hi). lia.
    + intros later s' Hlater Hnofree i data Hi.
      apply enqueue_call_waits; [exact Hi|].
      pose proof (sem_empty_until later s s' Hlater Hnofree). lia.
  - intros Hempty_queue. split.
    + intros i Hi. pose proof (value_at_67 C s i Hs Hi). lia.
    + intros later s' Hlater Hnoann i Hi.
      apply dequeue_call_waits; [exact Hi|].
      pose proof (sem_full_until later s s' Hlater Hnoann). lia.
  - intros i c data Hi.
    pose proof (room_at_57 C s i data Hs Hi) as Hroom.
    split.
    + rewrite (tail_is_free C _ Hwf).
      destruct (Z.ltb_spec (count (queue s)) C); [reflexivity | lia].
    + destruct (enqueue_locked_spec C (queue s) data Hwf Hroom)
        as (q' & E & _ & Hts & _ & _ & _ & _ & _ & Hp).
      unfold move. rewrite Hi, E. cbn. eexists. split; [reflexivity|].
      cbn. split; assumption.
  - intros i c Hi.
    pose proof (value_at_67 C s i Hs Hi) as Hsome.
    split.
    + rewrite (head_is_occupied C _ Hwf).
      destruct (Z.ltb_spec 0 (count (queue s))); [reflexivity | lia].
    + destruct (dequeue_locked_spec C (queue s) Hwf Hsome)
        as (data & q' & E & _ & _ & _ & _ & _ & _ & _ & _ & Hp).
      unfold move. rewrite Hi, E. cbn. exists data. eexists.
      split; [reflexivity|]. cbn. split; [|exact Hp].
      apply list_lookup_insert_eq. apply (lookup_lt_Some _ _ _ Hi).
Qed.

(** The order of the values across threads: the values stored by line 58
    are the values loaded by line 68 followed by the pending values. *)
Lemma stored_then_loaded mem C n sched s :
  0 < C -> Z.of_nat (length mem) = C ->
  exec sched (boot mem C n) = Done s ->
  stored s = loaded s ++ pending (queue s) /\
  0 <= count (queue s) <= C.
Proof.
  intros HC Hlen Hexec.
  pose proof (exec_balanced C sched _ _ (balanced_boot mem C n HC Hlen) Hexec)
    as (Hwf & _ & _ & _ & _ & Hfifo).
  split; [exact Hfifo | apply Hwf].
Qed.

Lemma C8_back_pressure_witness :
  let d := fun n => {| p := n |} in
  let sched := [(0%nat, CallEnqueue (d 2)); (0%nat, CallEnqueue (d 2));
                (0%nat, CallEnqueue (d 2)); (0%nat, CallEnqueue (d 3));
                (0%nat, CallEnqueue (d 3)); (0%nat, CallEnqueue (d 3))] in
  exists s,
    exec sched (boot [d 0; d 0] 2 3) = Done s /\
    count (queue s) = 2 /\
    move 0 (CallEnqueue (d 5)) s = Blocks /\
    move 1 CallDequeue s <> Blocks.
Proof.
  intros d sched. eexists.
  split; [vm_compute; reflexivity|]. split; [reflexivity|].
  split; [|vm_compute; discriminate].
  refine (proj2 (proj1 (C8_back_pressure [d 0; d 0] 2 3 sched _ _ _ _) _)
            [] _ _ _ 0%nat (d 5) _).
  - lia.
  - reflexivity.
  - vm_compute. reflexivity.
  - reflexivity.
  - reflexivity.
  - reflexivity.
  - reflexivity.
Defined.

(** * More on the pipeline *)

(** ** The bound of line 107 and the candidates of line 109 *)

Lemma tlim_bounds M p tl :
  tlim M p = Some tl ->
  wrap M (2 * p) <> 0 /\ tl <= p / 2 /\ tl <= M / wrap M (2 * p).
Proof.
  unfold tlim. destruct (Z.eqb_spec (wrap M (2 * p)) 0) as [|Hd]; [discriminate|].
  intros H. injection H as <-. split; [exact Hd|].
  rewrite Z.gtb_ltb.
  destruct (Z.ltb_spec (M / wrap M (2 * p)) (p / 2)); lia.
Qed.

Lemma candidate_in_range M p tl k :
  0 < p -> 2 * p <= M -> tlim M p = Some tl -> 1 <= k < tl ->
  trial_q M p k = 2 * p * k + 1 /\ 2 * p * k + 1 <= M.
Proof.
  intros Hp Hfit Htl Hk.
  destruct (tlim_bounds _ _ _ Htl) as (_ & _ & Hle).
  rewrite wrap_small in Hle by lia.
  pose proof (Z.mul_div_le M (2 * p) ltac:(lia)) as Hdiv.
  assert (2 * p * k + 1 <= M) by nia.
  split; [|assumption].
  unfold trial_q.
  rewrite (wrap_small M (2 * p)) by lia.
  rewrite (wrap_small M (2 * p * k)) by nia.
  apply wrap_small. nia.
Qed.

(** X5. When [2 * p] fits in an [unsigned long], the bound [tlim] does
    what it is there for: for every [k] of the loop, [1 <= k < tlim], the
    candidate of line 109 is [2 p k + 1] itself, more than 1 and at most
    [ULONG_MAX]. *)
Theorem X5_candidates_do_not_wrap ULONG_MAX p tl k :
  0 < p -> 2 * p <= ULONG_MAX ->
  tlim ULONG_MAX p = Some tl -> 1 <= k < tl ->
  trial_q ULONG_MAX p k = 2 * p * k + 1 /\ 1 < 2 * p * k + 1 <= ULONG_MAX.
Proof.
  intros Hp Hfit Htl Hk.
  destruct (candidate_in_range _ _ _ _ Hp Hfit Htl Hk) as [Hq Hle].
  split; [exact Hq|]. split; [nia | exact Hle].
Qed.

Lemma X5_candidates_do_not_wrap_witness :
  trial_q (2 ^ 32 - 1) 100000 21473 = 4294600001.
Proof.
  refine (proj1 (X5_candidates_do_not_wrap (2 ^ 32 - 1) 100000 21474 21473 _ _ _ _)).
  - lia.
  - vm_compute. discriminate.
  - vm_compute. reflexivity.
  - lia.
Defined.

(** ** A return of 0 before stage 5 is right *)

Lemma square_below_mersenne p : 3 <= p -> (p - 1) * (p - 1) < mersenne p.
Proof.
  intros Hp. unfold mersenne.
  replace p with (3 + Z.of_nat (Z.to_nat (p - 3))) by lia.
  generalize (Z.to_nat (p - 3)) as n. clear p Hp.
  induction n as [|n IH]; [vm_compute; reflexivity|].
  rewrite Nat2Z.inj_succ.
  replace (3 + Z.succ (Z.of_nat n)) with (Z.succ (3 + Z.of_nat n)) by lia.
  rewrite Z.pow_succ_r by lia. nia.
Qed.

Lemma proper_divisor_not_prime n d : 1 < d < n -> (d | n) -> ~ Z.prime n.
Proof. intros Hd Hdiv [_ Hp]. exact (Hp d Hd Hdiv). Qed.

Lemma trial_from_found M p mp n : forall k q,
  trial_from M p mp n k = Some q ->
  exists j, k <= j < k + Z.of_nat n /\ q = trial_q M p j /\ trial_hit mp q = true.
Proof.
  induction n as [|n IH]; intros k q Hfound; [discriminate|].
  cbn [trial_from] in Hfound.
  destruct (trial_hit mp (trial_q M p k)) eqn:Hhit.
  - injection Hfound as <-. exists k. repeat split; try lia. exact Hhit.
  - destruct (IH _ _ Hfound) as (j & Hj & Hq & Hh).
    exists j. repeat split; try lia; assumption.
Qed.

Lemma trial_hit_divides mp q : q <> 0 -> trial_hit mp q = true -> (q | mp).
Proof.
  intros Hq Hhit. unfold trial_hit in Hhit.
  apply andb_true_iff in Hhit as [_ Hdiv].
  unfold mpz_divisible_ui_p, mpz_divisible_p in Hdiv.
  destruct (Z.eqb_spec q 0) as [?|_]; [contradiction|].
  apply Z.mod_divide; [assumption|]. apply Z.eqb_eq. exact Hdiv.
Qed.

Lemma stage_4_inversion M p mp q :
  trial_stage M p mp = ReturnTrial q ->
  exists tl, tlim M p = Some tl /\ trial_division M p mp tl = Some q.
Proof.
  unfold trial_stage. destruct (tlim M p) as [tl|]; [|discriminate].
  destruct (trial_division M p mp tl) as [q'|] eqn:Hq.
  - intros H. injection H as <-. exists tl. split; [reflexivity | exact Hq].
  - intros H. pose proof (stage_5_reached M p mp) as Hr.
    rewrite H in Hr. discriminate.
Qed.

Lemma trial_stage_divisor M p q :
  0 < p -> 2 * p <= M ->
  trial_stage M p (mersenne p) = ReturnTrial q ->
  (exists k, 1 <= k /\ q = 2 * p * k + 1) /\
  (q | mersenne p) /\ 1 < q < mersenne p.
Proof.
  intros Hp Hfit Hret.
  destruct (stage_4_inversion _ _ _ _ Hret) as (tl & Htl & Hdiv).
  unfold trial_division in Hdiv.
  destruct (trial_from_found _ _ _ _ _ _ Hdiv) as (k & Hk & Hq & Hhit).
  assert (Hk' : 1 <= k < tl) by lia.
  destruct (candidate_in_range _ _ _ _ Hp Hfit Htl Hk') as [Hqk _].
  rewrite Hqk in Hq.
  destruct (tlim_bounds _ _ _ Htl) as (_ & Hhalf & _).
  pose proof (half_mul_le p ltac:(lia)) as Hh.
  assert (3 <= p) by lia.
  pose proof (square_below_mersenne p ltac:(lia)) as Hsq.
  assert (Hrange : 1 < q < mersenne p) by nia.
  assert (Hd : (q | mersenne p)) by (apply trial_hit_divides; [lia | exact Hhit]).
  split; [exists k; split; [lia | exact Hq]|].
  split; [exact Hd | exact Hrange].
Qed.

(** X6. A return of 0 from the trial division (line 113) is right when
    [2 * p] fits in an [unsigned long]: the number found is a candidate
    [q = 2 p k + 1] with [k >= 1], it divides [M_p] and lies strictly
    between 1 and [M_p], so [M_p] is not prime. *)
Theorem X6_trial_division_sound ULONG_MAX p q :
  0 < p -> 2 * p <= ULONG_MAX ->
  trial_stage ULONG_MAX p (mersenne p) = ReturnTrial q ->
  (exists k, 1 <= k /\ q = 2 * p * k + 1) /\
  (q | mersenne p) /\ 1 < q < mersenne p /\ ~ Z.prime (mersenne p).
Proof.
  intros Hp Hfit Hret.
  destruct (trial_stage_divisor _ _ _ Hp Hfit Hret) as (Hk & Hd & Hrange).
  split; [exact Hk|]. split; [exact Hd|]. split; [exact Hrange|].
  exact (proper_divisor_not_prime _ _ Hrange Hd).
Qed.

Lemma X6_trial_division_sound_witness :
  (233 | mersenne 29) /\ ~ Z.prime (mersenne 29).
Proof.
  destruct (X6_trial_division_sound (2 ^ 64 - 1) 29 233) as (_ & Hd & _ & Hn).
  - lia.
  - vm_compute. discriminate.
  - vm_compute. reflexivity.
  - split; assumption.
Defined.

Lemma stage_3_inversion M pp p :
  lucas_lehmer_path M pp p = ReturnSpecial ->
  special_factor pp p (mersenne p) = true.
Proof.
  unfold lucas_lehmer_path.
  destruct (p =? 2); [discriminate|].
  destruct (pp p 25 =? 0); [discriminate|].
  cbv zeta. destruct (special_factor pp p (mersenne p)); [reflexivity|].
  unfold trial_stage. destruct (tlim M p); [|discriminate].
  destruct (trial_division _ _ _ _); [discriminate|].
  intros H. pose proof (stage_5_reached M p (mersenne p)) as Hr.
  rewrite H in Hr. discriminate.
Qed.

Lemma special_factor_divisor pp p :
  special_factor pp p (mersenne p) = true ->
  3 < p /\ p mod 4 = 3 /\ pp (2 * p + 1) 25 <> 0 /\
  (2 * p + 1 | mersenne p) /\ 1 < 2 * p + 1 < mersenne p.
Proof.
  intros Hret. unfold special_factor in Hret.
  apply andb_true_iff in Hret as [Hret Hdiv].
  apply andb_true_iff in Hret as [Hret Hq].
  apply andb_true_iff in Hret as [Hgt H4].
  rewrite Z.gtb_ltb in Hgt. apply Z.ltb_lt in Hgt. apply Z.eqb_eq in H4.
  apply negb_true_iff, Z.eqb_neq in Hq.
  unfold mpz_divisible_p in Hdiv.
  destruct (Z.eqb_spec (2 * p + 1) 0) as [?|_]; [lia|].
  apply Z.eqb_eq, Z.mod_divide in Hdiv; [|lia].
  pose proof (square_below_mersenne p ltac:(lia)) as Hsq.
  assert (Hrange : 1 < 2 * p + 1 < mersenne p) by nia.
  repeat (split; [assumption|]). exact Hrange.
Qed.

(** X7. A return of 0 from the special factor filter (line 102) is right,
    whatever the primality test says: then [p > 3], [p mod 4 = 3], and
    [2p + 1] divides [M_p] and lies strictly between 1 and [M_p], so [M_p]
    is not prime. *)
Theorem X7_special_factor_sound ULONG_MAX mpz_probab_prime_p p :
  lucas_lehmer_path ULONG_MAX mpz_probab_prime_p p = ReturnSpecial ->
  3 < p /\ p mod 4 = 3 /\ mpz_probab_prime_p (2 * p + 1) 25 <> 0 /\
  (2 * p + 1 | mersenne p) /\ 1 < 2 * p + 1 < mersenne p /\
  ~ Z.prime (mersenne p).
Proof.
  intros Hret. apply stage_3_inversion in Hret.
  destruct (special_factor_divisor _ _ Hret) as (Hp & H4 & Hq & Hdiv & Hrange).
  repeat (split; [assumption|]).
  exact (proper_divisor_not_prime _ _ Hrange Hdiv).
Qed.

Lemma X7_special_factor_sound_witness :
  (2 * 23 + 1 | mersenne 23) /\ ~ Z.prime (mersenne 23).
Proof.
  destruct (X7_special_factor_sound (2 ^ 64 - 1) trial_probab_prime_p 23)
    as (_ & _ & _ & Hd & _ & Hn).
  - vm_compute. reflexivity.
  - split; assumption.
Defined.

Lemma power_minus_one_divides x b : 0 <= b -> (x - 1 | x ^ b - 1).
Proof.
  intros Hb. pattern b. apply natlike_ind; [| |exact Hb].
  - exists 0. reflexivity.
  - intros n Hn [c Hc]. rewrite Z.pow_succ_r by assumption.
    exists (x * c + 1). rewrite Z.mul_add_distr_r, <- Z.mul_assoc, <- Hc. ring.
Qed.

Lemma mersenne_of_composite p a :
  1 < a < p -> (a | p) -> ~ Z.prime (mersenne p).
Proof.
  intros Ha [b Hb].
  assert (0 < b) by nia.
  apply (proper_divisor_not_prime _ (mersenne a)).
  - unfold mersenne.
    assert (2 ^ 2 <= 2 ^ a) by (apply Z.pow_le_mono_r; lia).
    assert (2 ^ a < 2 ^ p) by (apply Z.pow_lt_mono_r; lia).
    change (2 ^ 2) with 4 in *. lia.
  - unfold mersenne. subst p. rewrite Z.mul_comm, Z.pow_mul_r by lia.
    apply power_minus_one_divides. lia.
Qed.

Lemma mersenne_of_non_prime p : ~ Z.prime p -> ~ Z.prime (mersenne p).
Proof.
  intros Hp.
  destruct (Z_lt_le_dec p 2) as [Hsmall|Hbig].
  - intros [Hm _]. unfold mersenne in Hm.
    destruct (Z_lt_le_dec p 0) as [Hneg|Hpos].
    + rewrite Z.pow_neg_r in Hm by assumption. lia.
    + assert (p = 0 \/ p = 1) as [-> | ->] by lia; vm_compute in Hm; discriminate.
  - destruct (not_prime_divide p ltac:(lia)) as (a & Ha & Hdiv).
    + intros Hprime. apply Hp. apply prime_alt. exact Hprime.
    + exact (mersenne_of_composite p a Ha Hdiv).
Qed.

(** X8. A return of 0 from the exponent filter (line 88) is right when
    GMP's test never reports a prime as composite: the exponent is then
    not prime, and neither is [M_p]. *)
Theorem X8_exponent_filter_sound ULONG_MAX mpz_probab_prime_p p :
  (forall n reps, Z.prime n -> mpz_probab_prime_p n reps <> 0) ->
  lucas_lehmer_path ULONG_MAX mpz_probab_prime_p p = ReturnExponent ->
  ~ Z.prime p /\ ~ Z.prime (mersenne p).
Proof.
  intros Hpp Hret.
  assert (Hzero : mpz_probab_prime_p p 25 = 0).
  { unfold lucas_lehmer_path in Hret.
    destruct (p =? 2); [discriminate|].
    destruct (Z.eqb_spec (mpz_probab_prime_p p 25) 0) as [H0|_]; [exact H0|].
    exfalso. cbv zeta in Hret.
    destruct (special_factor _ _ _); [discriminate|].
    unfold trial_stage in Hret. destruct (tlim ULONG_MAX p); [|discriminate].
    destruct (trial_division _ _ _ _); [discriminate|].
    pose proof (stage_5_reached ULONG_MAX p (mersenne p)) as Hr.
    rewrite Hret in Hr. discriminate. }
  assert (Hp : ~ Z.prime p) by (intros Hprime; exact (Hpp p 25 Hprime Hzero)).
  split; [exact Hp | exact (mersenne_of_non_prime p Hp)].
Qed.

Lemma X8_exponent_filter_sound_witness : ~ Z.prime (mersenne 15).
Proof.
  refine (proj2 (X8_exponent_filter_sound (2 ^ 64 - 1) trial_probab_prime_p 15 _ _)).
  - exact trial_probab_prime_p_complete.
  - reflexivity.
Defined.

(** ** The values that [lucas_lehmer] returns *)

(** A value other than 0 comes from line 82 only: past line 118 the
    function returns only when the loop has no iteration, with [V = 4]. *)
Lemma lucas_lehmer_nonzero M pp p r :
  lucas_lehmer M pp p = Some r -> r <> 0 -> p = 2.
Proof.
  unfold lucas_lehmer, lucas_lehmer_path.
  destruct (Z.eqb_spec p 2) as [Hp|_]; [intros _ _; exact Hp|].
  intros Hret Hr. exfalso.
  destruct (pp p 25 =? 0); [injection Hret as <-; contradiction|].
  cbv zeta in Hret.
  destruct (special_factor _ _ _); [injection Hret as <-; contradiction|].
  unfold trial_stage in Hret. destruct (tlim M p); [|discriminate].
  destruct (trial_division _ _ _ _); [injection Hret as <-; contradiction|].
  destruct (Z_lt_le_dec p 3) as [Hp|Hp].
  - rewrite lucas_lehmer_stage_below_3 in Hret by exact Hp.
    destruct (p =? M); [discriminate|].
    injection Hret as <-. contradiction.
  - rewrite lucas_lehmer_stage_from_3 in Hret by exact Hp. discriminate.
Qed.

(** Stage 4 returns at line 113 or goes on to line 118, unless line 107
    divides by zero. *)
Lemma stage_4_outcomes M p mp o :
  trial_stage M p mp = o ->
  match o with
  | ReturnBase | ReturnExponent | ReturnSpecial => False
  | _ => True
  end.
Proof.
  intros <-. unfold trial_stage.
  destruct (tlim M p); [|exact I].
  destruct (trial_division _ _ _ _); [exact I|].
  pose proof (stage_5_reached M p mp) as Hr.
  destruct (lucas_lehmer_stage M p mp); try exact I; discriminate.
Qed.

(** A returned 0 is right, for a test that never rejects a prime and an
    exponent whose double fits in an [unsigned long]. *)
Lemma lucas_lehmer_zero_sound M pp p :
  (forall n reps, Z.prime n -> pp n reps <> 0) ->
  2 * p <= M ->
  lucas_lehmer M pp p = Some 0 -> ~ Z.prime (mersenne p).
Proof.
  intros Hpp Hfit.
  destruct (Z_lt_le_dec p 3) as [Hsmall|Hbig].
  - destruct (Z.eq_dec p 2) as [->|H2]; [discriminate|].
    intros _. apply mersenne_of_non_prime.
    intros [Hp1 _]. lia.
  - unfold lucas_lehmer, lucas_lehmer_path.
    destruct (Z.eqb_spec p 2) as [?|_]; [lia|].
    destruct (Z.eqb_spec (pp p 25) 0) as [H0|_].
    { intros _. apply mersenne_of_non_prime.
      intros Hprime. exact (Hpp p 25 Hprime H0). }
    cbv zeta. destruct (special_factor pp p (mersenne p)) eqn:Hsp.
    { intros _.
      destruct (special_factor_divisor _ _ Hsp) as (_ & _ & _ & Hdiv & Hrange).
      exact (proper_divisor_not_prime _ _ Hrange Hdiv). }
    destruct (trial_stage M p (mersenne p)) as [| | |q|V| | |] eqn:Hstage;
      try discriminate; intros _.
    + exfalso. exact (stage_4_outcomes _ _ _ _ Hstage).
    + exfalso. exact (stage_4_outcomes _ _ _ _ Hstage).
    + destruct (trial_stage_divisor M p q ltac:(lia) Hfit Hstage)
        as (_ & Hdiv & Hrange).
      exact (proper_divisor_not_prime _ _ Hrange Hdiv).
    + exfalso. unfold trial_stage in Hstage.
      destruct (tlim M p); [|discriminate].
      destruct (trial_division _ _ _ _); [discriminate|].
      rewrite lucas_lehmer_stage_from_3 in Hstage by exact Hbig.
      discriminate.
Qed.

(** ** The filters and the width of [unsigned long] *)

(** X10. For an exponent with [p >= 2] and [p * p <= ULONG_MAX], what
    [lucas_lehmer] does up to line 118 is the same whatever the width of
    [unsigned long], since nothing wraps around: it passes line 118 for
    both widths or for none, and when it does not, it returns at the same
    line, with the same divisor. *)
Theorem X10_width_independent M M' mpz_probab_prime_p p :
  2 <= p -> p * p <= M -> p * p <= M' ->
  reached_lucas_lehmer (lucas_lehmer_path M mpz_probab_prime_p p) =
  reached_lucas_lehmer (lucas_lehmer_path M' mpz_probab_prime_p p) /\
  (reached_lucas_lehmer (lucas_lehmer_path M mpz_probab_prime_p p) = false ->
   lucas_lehmer_path M mpz_probab_prime_p p =
   lucas_lehmer_path M' mpz_probab_prime_p p).
Proof.
  intros Hp HM HM'.
  assert (Hsame : lucas_lehmer_path M mpz_probab_prime_p p =
                  lucas_lehmer_path M' mpz_probab_prime_p p).
  { unfold lucas_lehmer_path.
    rewrite (trial_stage_small M M') by assumption. reflexivity. }
  rewrite Hsame. split; [reflexivity | intros _; reflexivity].
Qed.

Lemma X10_width_independent_witness :
  lucas_lehmer_path (2 ^ 32 - 1) trial_probab_prime_p 29 = ReturnTrial 233 /\
  lucas_lehmer_path (2 ^ 64 - 1) trial_probab_prime_p 29 = ReturnTrial 233.
Proof.
  assert (E : lucas_lehmer_path (2 ^ 32 - 1) trial_probab_prime_p 29
              = ReturnTrial 233) by (vm_compute; reflexivity).
  destruct (X10_width_independent (2 ^ 32 - 1) (2 ^ 64 - 1)
              trial_probab_prime_p 29) as [_ Hsame];
    [lia | vm_compute; discriminate | vm_compute; discriminate |].
  split; [exact E|]. rewrite <- Hsame; [exact E|].
  rewrite E. reflexivity.
Defined.

(** * More on the task queue *)

(** ** Calls that run one after the other *)

Lemma run_app ops1 : forall ops2 q,
  run (ops1 ++ ops2) q =
  match run ops1 q with
  | Done (q1, out1) =>
      match run ops2 q1 with
      | Done (q2, out2) => Done (q2, out1 ++ out2)
      | Blocks => Blocks
      | Undefined => Undefined
      end
  | Blocks => Blocks
  | Undefined => Undefined
  end.
Proof.
  induction ops1 as [|[data|] ops1 IH]; intros ops2 q.
  - cbn. destruct (run ops2 q) as [[q2 out2]| |]; reflexivity.
  - cbn [app run]. destruct (enqueue q data) as [q1| |]; cbn; [apply IH | reflexivity..].
  - cbn [app run]. destruct (dequeue q) as [[d q1]| |]; cbn; [|reflexivity..].
    rewrite IH. destruct (run ops1 q1) as [[q2 out1]| |]; cbn; [|reflexivity..].
    destruct (run ops2 q2) as [[q3 out2]| |]; reflexivity.
Qed.

Lemma run_enqueues C ds : forall q,
  quiescent C q -> count q + Z.of_nat (length ds) <= C ->
  exists q', run (map Enqueue ds) q = Done (q', []) /\
             quiescent C q' /\
             count q' = count q + Z.of_nat (length ds) /\
             pending q' = pending q ++ ds.
Proof.
  induction ds as [|d ds IH]; intros q Hq Hroom.
  - exists q. cbn [map run length]. rewrite app_nil_r.
    split; [reflexivity|]. split; [exact Hq|]. split; [lia | reflexivity].
  - cbn [length] in Hroom. cbn [map run].
    pose proof (enqueue_spec C q d Hq) as Henq.
    destruct (Z.ltb_spec (count q) C) as [_|?]; [|lia].
    destruct Henq as (q1 & -> & Hq1 & _ & _ & _ & Hc & Hp). cbn.
    destruct (IH q1 Hq1 ltac:(lia)) as (q' & Hrun & Hq' & Hc' & Hp').
    exists q'. split; [exact Hrun|]. split; [exact Hq'|].
    split; [cbn [length]; lia|]. rewrite Hp', Hp, <- app_assoc. reflexivity.
Qed.

(** X11. Round trip: on a fresh queue of capacity [C], the [enqueue] calls
    for up to [C] values followed by as many [dequeue] calls run without
    waiting, the [dequeue] calls return the values in the order they were
    given, and the queue is empty again: no value is pending, [count] is
    0, the semaphore [sem_empty] is back at [C] and [sem_full] at 0. *)
Theorem X11_batch_round_trip mem C ds :
  0 < C -> Z.of_nat (length mem) = C -> Z.of_nat (length ds) <= C ->
  exists q, run (map Enqueue ds ++ replicate (length ds) Dequeue)
                (init_queue mem C) = Done (q, ds) /\
            count q = 0 /\ pending q = [] /\
            sem_empty q = C /\ sem_full q = 0.
Proof.
  intros HC Hlen Hds.
  pose proof (quiescent_init mem C HC Hlen) as Hq0.
  destruct (run_enqueues C ds (init_queue mem C) Hq0)
    as (q1 & Hrun1 & Hq1 & Hc1 & Hp1); [cbn; lia|].
  change (pending (init_queue mem C)) with (@nil ThreadData) in Hp1.
  cbn [app] in Hp1. cbn [count init_queue] in Hc1.
  destruct (run_drain C (length ds) q1 Hq1 ltac:(lia))
    as (q2 & Hrun2 & Hq2 & Hc2 & Hp2).
  exists q2. rewrite run_app, Hrun1, Hrun2, Hp1.
  destruct Hq2 as (_ & Hempty & Hfull).
  split; [reflexivity|]. split; [exact Hc2|]. split; [exact Hp2|].
  split; lia.
Qed.

Lemma X11_batch_round_trip_witness :
  let d := fun n => {| p := n |} in
  exists q, run [Enqueue (d 2); Enqueue (d 3); Enqueue (d 5);
                 Dequeue; Dequeue; Dequeue]
                (init_queue [d 0; d 0; d 0] 3) = Done (q, [d 2; d 3; d 5]) /\
            sem_empty q = 3 /\ sem_full q = 0.
Proof.
  intros d.
  destruct (X11_batch_round_trip [d 0; d 0; d 0] 3 [d 2; d 3; d 5])
    as (q & Hrun & _ & _ & He & Hf); [lia | reflexivity | cbn; lia |].
  exists q. split; [exact Hrun|]. split; assumption.
Defined.

(** X12. After any sequence of calls that did not wait, a further call has
    a defined behaviour and waits only when it must: [enqueue] waits
    exactly when [count] is the capacity, [dequeue] exactly when [count]
    is 0. *)
Theorem X12_calls_wait_only_when_needed mem C ops q out data :
  0 < C -> Z.of_nat (length mem) = C ->
  run ops (init_queue mem C) = Done (q, out) ->
  enqueue q data <> Undefined /\ dequeue q <> Undefined /\
  (enqueue q data = Blocks <-> count q = C) /\
  (dequeue q = Blocks <-> count q = 0).
Proof.
  intros HC Hlen Hrun.
  destruct (run_fifo C ops _ _ _ (quiescent_init mem C HC Hlen) Hrun)
    as [Hq _].
  pose proof Hq as ((_ & _ & _ & _ & _ & Hcount & _) & _ & _).
  pose proof (enqueue_spec C q data Hq) as Henq.
  pose proof (dequeue_spec C q Hq) as Hdeq.
  destruct (Z.ltb_spec (count q) C) as [Hroom|Hfull];
    destruct (Z.ltb_spec 0 (count q)) as [Hsome|Hnone].
  - destruct Henq as (q1 & -> & _). destruct Hdeq as (d & q2 & -> & _).
    repeat split; try discriminate; lia.
  - destruct Henq as (q1 & -> & _). rewrite Hdeq.
    repeat split; try discriminate; try lia; reflexivity.
  - rewrite Henq. destruct Hdeq as (d & q2 & -> & _).
    repeat split; try discriminate; try lia; reflexivity.
  - lia.
Qed.

Lemma X12_calls_wait_only_when_needed_witness :
  let d := fun n => {| p := n |} in
  let ops := [Enqueue (d 2); Enqueue (d 3); Dequeue; Enqueue (d 5)] in
  exists q, run ops (init_queue [d 0; d 0] 2) = Done (q, [d 2]) /\
            count q = 2 /\ pending q = [d 3; d 5] /\
            enqueue q (d 7) = Blocks /\
            dequeue q <> Blocks /\ dequeue q <> Undefined.
Proof.
  intros d ops. eexists.
  split; [vm_compute; reflexivity|].
  match goal with
  | |- count ?q = _ /\ _ =>
      destruct (X12_calls_wait_only_when_needed [d 0; d 0] 2 ops q [d 2] (d 7))
        as (_ & Hdef & He & Hd);
        [lia | reflexivity | vm_compute; reflexivity |]
  end.
  split; [reflexivity|]. split; [reflexivity|].
  split; [apply He; reflexivity|].
  split; [|exact Hdef].
  intros Hb. apply Hd in Hb. discriminate.
Defined.

(** ** Calls of several threads *)

(** X13. Whatever the interleaving of the threads, the values that line 68
    has loaded are, in order, the first of the values that line 58 has
    stored; the others are the pending values, in order, and there are
    [count] of them, at most the capacity. *)
Theorem X13_fifo_across_threads mem C n sched s :
  0 < C -> Z.of_nat (length mem) = C ->
  exec sched (boot mem C n) = Done s ->
  stored s = loaded s ++ pending (queue s) /\
  loaded s `prefix_of` stored s /\
  Z.of_nat (length (stored s)) - Z.of_nat (length (loaded s)) = count (queue s) /\
  0 <= count (queue s) <= C.
Proof.
  intros HC Hlen Hexec.
  pose proof (exec_balanced C sched _ _ (balanced_boot mem C n HC Hlen) Hexec)
    as (Hwf & _ & _ & _ & _ & Hfifo).
  pose proof (pending_length C _ Hwf) as Hpl.
  split; [exact Hfifo|].
  split; [exists (pending (queue s)); exact Hfifo|].
  split; [rewrite Hfifo, length_app; lia | apply Hwf].
Qed.

Lemma X13_fifo_across_threads_witness :
  let d := fun n => {| p := n |} in
  let go := CallDequeue in
  let sched := [(0%nat, CallEnqueue (d 2)); (2%nat, CallEnqueue (d 3));
                (2%nat, go); (0%nat, go); (2%nat, go); (1%nat, CallDequeue);
                (0%nat, go); (3%nat, CallDequeue); (3%nat, go); (1%nat, go)] in
  exists s, exec sched (boot [d 0; d 0] 2 4) = Done s /\
            stored s = [d 3; d 2] /\ loaded s = [d 3; d 2] /\
            count (queue s) = 0.
Proof.
  intros d go sched. eexists.
  split; [vm_compute; reflexivity|].
  match goal with
  | |- stored ?s = _ /\ _ =>
      pose proof (X13_fifo_across_threads [d 0; d 0] 2 4 sched s) as H;
      assert (E : exec sched (boot [d 0; d 0] 2 4) = Done s)
        by (vm_compute; reflexivity)
  end.
  destruct (H ltac:(lia) eq_refl E) as (_ & _ & Hc & _).
  split; [reflexivity|]. split; [reflexivity|].
  rewrite <- Hc. reflexivity.
Defined.

(** X14. Whatever the interleaving, no step of a thread has an undefined
    behaviour (the indices are inside the buffer, the divisor of [%] is
    not 0), and a thread that is inside a call, past its [sem_wait], has
    its next step: when it holds the mutex, lines 58-60 find a free slot
    and lines 68-70 a pending value, and [sem_post] does not wait.  (The
    wait for the mutex itself is not a step of the model: the lines under
    the mutex are one step.) *)
Theorem X14_steps_are_defined mem C n sched s i c :
  0 < C -> Z.of_nat (length mem) = C ->
  exec sched (boot mem C n) = Done s ->
  move i c s <> Undefined /\
  (forall pos, threads s !! i = Some pos -> pos <> AtRest ->
               exists s', move i c s = Done s').
Proof.
  intros HC Hlen Hexec.
  pose proof (exec_balanced C sched _ _ (balanced_boot mem C n HC Hlen) Hexec)
    as Hs.
  pose proof Hs as (Hwf & _).
  unfold move.
  destruct (threads s !! i) as [[|data| | |data]|] eqn:Hi.
  - split; [|intros pos Hpos; injection Hpos as <-; contradiction].
    destruct c as [data|].
    + unfold enqueue_wait, sem_wait.
      destruct (0 <? sem_empty (queue s)); discriminate.
    + unfold dequeue_wait, sem_wait.
      destruct (0 <? sem_full (queue s)); discriminate.
  - pose proof (room_at_57 C s i data Hs Hi) as Hroom.
    destruct (enqueue_locked_spec C (queue s) data Hwf Hroom) as (q' & -> & _).
    split; [discriminate | intros; eexists; reflexivity].
  - split; [discriminate | intros; eexists; reflexivity].
  - pose proof (value_at_67 C s i Hs Hi) as Hsome.
    destruct (dequeue_locked_spec C (queue s) Hwf Hsome) as (d & q' & -> & _).
    split; [discriminate | intros; eexists; reflexivity].
  - split; [discriminate | intros; eexists; reflexivity].
  - split; [discriminate | intros pos Hpos; discriminate].
Qed.

Lemma X14_steps_are_defined_witness :
  let d := fun n => {| p := n |} in
  let go := CallDequeue in
  let sched := [(0%nat, CallEnqueue (d 5)); (0%nat, go); (0%nat, go);
                (1%nat, CallDequeue); (0%nat, CallEnqueue (d 6))] in
  exists s, exec sched (boot [d 0; d 0] 2 2) = Done s /\
            threads s = [Enq57 (d 6); Deq67] /\
            head (queue s) = 0 /\ tail (queue s) = 1 /\
            move 0 go s <> Undefined /\
            (exists s', move 0 go s = Done s') /\
            (exists s', move 1 go s = Done s').
Proof.
  intros d go sched. eexists.
  split; [vm_compute; reflexivity|].
  match goal with
  | |- threads ?s = _ /\ _ =>
      destruct (X14_steps_are_defined [d 0; d 0] 2 2 sched s 0%nat go)
        as (Hdef & Hstep0);
        [lia | reflexivity | vm_compute; reflexivity |];
      destruct (X14_steps_are_defined [d 0; d 0] 2 2 sched s 1%nat go)
        as (_ & Hstep1);
        [lia | reflexivity | vm_compute; reflexivity |]
  end.
  split; [reflexivity|]. split; [reflexivity|]. split; [reflexivity|].
  split; [exact Hdef|].
  split.
  - apply (Hstep0 (Enq57 (d 6))); [reflexivity | discriminate].
  - apply (Hstep1 Deq67); [reflexivity | discriminate].
Defined.

Lemma exec_threads sched : forall s s',
  exec sched s = Done s' -> length (threads s') = length (threads s).
Proof.
  induction sched as [|[i c] sched IH]; intros s s' Hexec.
  - cbn in Hexec. injection Hexec as <-. reflexivity.
  - cbn [exec] in Hexec.
    destruct (move i c s) as [s1| |] eqn:Hmove; try discriminate.
    cbn in Hexec. rewrite (IH s1 s' Hexec).
    unfold move in Hmove.
    destruct (threads s !! i) as [[|data| | |data]|]; try discriminate.
    + destruct c as [data|].
      * destruct (enqueue_wait (queue s)); try discriminate.
        cbn in Hmove. injection Hmove as <-. apply length_insert.
      * destruct (dequeue_wait (queue s)); try discriminate.
        cbn in Hmove. injection Hmove as <-. apply length_insert.
    + destruct (enqueue_locked (queue s) data); try discriminate.
      cbn in Hmove. injection Hmove as <-. apply length_insert.
    + injection Hmove as <-. apply length_insert.
    + destruct (dequeue_locked (queue s)) as [[d q]| |]; try discriminate.
      cbn in Hmove. injection Hmove as <-. apply length_insert.
    + injection Hmove as <-. apply length_insert.
Qed.

Lemma rest_or_busy (l : list Position) :
  (exists i pos, l !! i = Some pos /\ pos <> AtRest) \/
  (forall f, f AtRest = false -> tally f l = 0).
Proof.
  induction l as [|x l [(i & pos & Hi & Hpos)|Hrest]].
  - right. reflexivity.
  - left. exists (S i), pos. split; assumption.
  - destruct x as [|d| | |d];
      try (left; exists 0%nat; eexists; split; [reflexivity | discriminate]).
    right. intros f Hf. cbn [tally]. rewrite Hf, (Hrest f Hf). reflexivity.
Qed.

(** X15. The queue never brings all threads to a halt: in every state
    that threads can reach from [init_queue], whatever the interleaving,
    some thread can take a step; when no thread is inside a call, a call
    of [enqueue] or a call of [dequeue] goes through. *)
Theorem X15_no_deadlock mem C n sched s :
  0 < C -> Z.of_nat (length mem) = C -> (0 < n)%nat ->
  exec sched (boot mem C n) = Done s ->
  exists i c s', move i c s = Done s'.
Proof.
  intros HC Hlen Hn Hexec.
  pose proof (exec_balanced C sched _ _ (balanced_boot mem C n HC Hlen) Hexec)
    as Hs.
  pose proof Hs as (Hwf & He & Hf & Hempty & Hfull & _).
  destruct (rest_or_busy (threads s)) as [(i & pos & Hi & Hpos)|Hrest].
  - exists i, CallDequeue. unfold move. rewrite Hi.
    destruct pos as [|data| | |data]; [contradiction| | | |].
    + pose proof (room_at_57 C s i data Hs Hi) as Hroom.
      destruct (enqueue_locked_spec C (queue s) data Hwf Hroom) as (q' & -> & _).
      eexists. reflexivity.
    + eexists. reflexivity.
    + pose proof (value_at_67 C s i Hs Hi) as Hsome.
      destruct (dequeue_locked_spec C (queue s) Hwf Hsome) as (d & q' & -> & _).
      eexists. reflexivity.
    + eexists. reflexivity.
  - rewrite !Hrest in Hempty, Hfull by reflexivity.
    assert (Hlen0 : (0 < length (threads s))%nat).
    { rewrite (exec_threads sched _ _ Hexec). cbn. rewrite length_replicate. exact Hn. }
    destruct (lookup_lt_is_Some_2 (threads s) 0 Hlen0) as [pos Hpos].
    assert (pos = AtRest) as ->.
    { destruct pos as [|d| | |d]; [reflexivity|..].
      - pose proof (tally_lookup at57 _ _ _ Hpos eq_refl) as H1.
        rewrite Hrest in H1 by reflexivity. lia.
      - pose proof (tally_lookup at62 _ _ _ Hpos eq_refl) as H1.
        rewrite Hrest in H1 by reflexivity. lia.
      - pose proof (tally_lookup at67 _ _ _ Hpos eq_refl) as H1.
        rewrite Hrest in H1 by reflexivity. lia.
      - pose proof (tally_lookup at72 _ _ _ Hpos eq_refl) as H1.
        rewrite Hrest in H1 by reflexivity. lia. }
    destruct (Z_lt_le_dec 0 (sem_empty (queue s))) as [Hroom|Hnone].
    + exists 0%nat, (CallEnqueue {| p := 0 |}). unfold move. rewrite Hpos.
      unfold enqueue_wait, sem_wait.
      destruct (Z.ltb_spec 0 (sem_empty (queue s))); [|lia].
      eexists. reflexivity.
    + exists 0%nat, CallDequeue. unfold move. rewrite Hpos.
      unfold dequeue_wait, sem_wait.
      destruct (Z.ltb_spec 0 (sem_full (queue s))); [|lia].
      eexists. reflexivity.
Qed.

Lemma X15_no_deadlock_witness :
  let d := fun n => {| p := n |} in
  let go := CallDequeue in
  let sched := [(0%nat, CallEnqueue (d 5)); (0%nat, go); (0%nat, go);
                (1%nat, CallDequeue)] in
  exists s, exec sched (boot [d 0] 1 2) = Done s /\
            threads s = [AtRest; Deq67] /\
            sem_empty (queue s) = 0 /\ sem_full (queue s) = 0 /\
            move 0 (CallEnqueue (d 6)) s = Blocks /\
            exists i c s', move i c s = Done s'.
Proof.
  intros d go sched. eexists.
  split; [vm_compute; reflexivity|].
  repeat (split; [reflexivity|]).
  match goal with
  | |- exists i c s', move i c ?s = _ =>
      apply (X15_no_deadlock [d 0] 1 2 sched s);
        [lia | reflexivity | lia | vm_compute; reflexivity]
  end.
Defined.

(** * The generator and the workers *)

Import Pool.

Lemma move_inversion i c s s' :
  move i c s = Done s' ->
  exists pos pos',
    threads s !! i = Some pos /\ threads s' = <[i := pos']> (threads s) /\
    match pos with
    | AtRest =>
        stored s' = stored s /\ loaded s' = loaded s /\
        match c with
        | CallEnqueue data => pos' = Enq57 data
        | CallDequeue => pos' = Deq67
        end
    | Enq57 data =>
        pos' = Enq62 /\ stored s' = stored s ++ [data] /\ loaded s' = loaded s
    | Enq62 => pos' = AtRest /\ stored s' = stored s /\ loaded s' = loaded s
    | Deq67 =>
        exists data, pos' = Deq72 data /\ stored s' = stored s /\
                     loaded s' = loaded s ++ [data]
    | Deq72 _ => pos' = AtRest /\ stored s' = stored s /\ loaded s' = loaded s
    end.
Proof.
  unfold move. destruct (threads s !! i) as [[|data| | |data]|]; [| | | | |discriminate].
  - destruct c as [data|].
    + destruct (enqueue_wait (queue s)) as [q| |]; try discriminate.
      cbn. intros H. injection H as <-. exists AtRest, (Enq57 data). cbn. auto.
    + destruct (dequeue_wait (queue s)) as [q| |]; try discriminate.
      cbn. intros H. injection H as <-. exists AtRest, Deq67. cbn. auto.
  - destruct (enqueue_locked (queue s) data) as [q| |]; try discriminate.
    cbn. intros H. injection H as <-. exists (Enq57 data), Enq62. cbn. auto.
  - intros H. injection H as <-. exists Enq62, AtRest. cbn. auto.
  - destruct (dequeue_locked (queue s)) as [[d q]| |]; try discriminate.
    cbn. intros H. injection H as <-. exists Deq67, (Deq72 d). cbn. eauto 6.
  - intros H. injection H as <-. exists (Deq72 data), AtRest. cbn. auto.
Qed.

Lemma omap_insert {A B : Type} (f : A -> option B) (l : list A) i x y :
  l !! i = Some x ->
  option_list (f x) ++ omap f (<[i := y]> l) ≡ₚ option_list (f y) ++ omap f l.
Proof.
  revert i. induction l as [|a l IH]; intros [|i] Hi; try discriminate.
  - cbn in Hi. injection Hi as ->.
    change (<[0%nat := y]> (x :: l)) with (y :: l). cbn [omap list_omap].
    destruct (f x), (f y); cbn; try reflexivity. apply perm_swap.
  - cbn in Hi. change (<[S i := y]> (a :: l)) with (a :: <[i := y]> l).
    cbn [omap list_omap]. specialize (IH i Hi).
    destruct (f a) as [b|]; [|exact IH].
    rewrite <- !Permutation_middle. rewrite IH. reflexivity.
Qed.

Lemma omap_insert_none {A B : Type} (f : A -> option B) (l : list A) i x y :
  l !! i = Some x -> f x = None -> f y = None ->
  omap f (<[i := y]> l) ≡ₚ omap f l.
Proof.
  intros Hi Hx Hy. pose proof (omap_insert f l i x y Hi) as H.
  rewrite Hx, Hy in H. exact H.
Qed.

Section PoolFacts.

Variable ULONG_MAX : Z.
Variable mpz_probab_prime_p : Z -> Z -> Z.


Lemma worker_step_inversion w s s' :
  worker_step ULONG_MAX mpz_probab_prime_p w s = Done s' ->
  (works s !! w = Some Fetching /\
   exists sys, move (S w) CallDequeue (system s) = Done sys /\
     s' = {| system := sys; next := next s;
             works := match threads (system s) !! S w with
                      | Some (Deq72 data) => <[w := Testing (p data)]> (works s)
                      | _ => works s
                      end;
             output := output s |}) \/
  (exists wk wk' msgs,
     works s !! w = Some wk /\ wk <> Fetching /\
     work_on ULONG_MAX mpz_probab_prime_p wk = Done (wk', msgs) /\
     s' = {| system := system s; next := next s;
             works := <[w := wk']> (works s);
             output := output s ++ msgs |}).
Proof.
  unfold worker_step.
  destruct (works s !! w) as [wk|]; [|discriminate].
  destruct wk as [|e|e|e r|].
  - destruct (move (S w) CallDequeue (system s)) as [sys| |]; try discriminate.
    cbn. intros H. injection H as <-. left. split; [reflexivity|].
    exists sys. split; reflexivity.
  - destruct (work_on ULONG_MAX mpz_probab_prime_p (Testing e)) as [[wk' msgs]| |] eqn:E; try discriminate.
    cbn. intros H. injection H as <-. right.
    exists (Testing e), wk', msgs. repeat split; try assumption; discriminate.
  - destruct (work_on ULONG_MAX mpz_probab_prime_p (Iterating e)) as [[wk' msgs]| |] eqn:E; try discriminate.
    cbn. intros H. injection H as <-. right.
    exists (Iterating e), wk', msgs. repeat split; try assumption; discriminate.
  - destruct (work_on ULONG_MAX mpz_probab_prime_p (Reporting e r)) as [[wk' msgs]| |] eqn:E; try discriminate.
    cbn. intros H. injection H as <-. right.
    exists (Reporting e r), wk', msgs. repeat split; try assumption; discriminate.
  - destruct (work_on ULONG_MAX mpz_probab_prime_p Reminding) as [[wk' msgs]| |] eqn:E; try discriminate.
    cbn. intros H. injection H as <-. right.
    exists Reminding, wk', msgs. repeat split; try assumption; discriminate.
Qed.

Lemma main_step_inversion s s' :
  main_step ULONG_MAX s = Done s' ->
  exists sys, move 0 (CallEnqueue {| p := next s |}) (system s) = Done sys /\
    s' = {| system := sys;
            next := match threads (system s) !! 0%nat with
                    | Some Enq62 => wrap ULONG_MAX (next s + 1)
                    | _ => next s
                    end;
            works := works s; output := output s |}.
Proof.
  unfold main_step.
  destruct (move 0 _ (system s)) as [sys| |]; try discriminate.
  cbn. intros H. injection H as <-. exists sys. split; reflexivity.
Qed.

(** What a piece of work does to the exponent held and to the messages. *)
Lemma work_on_held wk wk' msgs :
  work_on ULONG_MAX mpz_probab_prime_p wk = Done (wk', msgs) ->
  omap verdict_of msgs ++ option_list (held_by wk') = option_list (held_by wk).
Proof.
  destruct wk as [|e|e|e r|]; cbn.
  - discriminate.
  - destruct (reached_lucas_lehmer _).
    + intros H. injection H as <- <-. reflexivity.
    + destruct (return_value _); [|discriminate].
      intros H. injection H as <- <-. reflexivity.
  - destruct (return_value _);
      [|destruct (lucas_lehmer_path _ _ _); discriminate].
    intros H. injection H as <- <-. reflexivity.
  - destruct (r =? 0); intros H; injection H as <- <-; reflexivity.
  - intros H. injection H as <- <-. reflexivity.
Qed.

Lemma work_on_right wk wk' msgs :
  work_right ULONG_MAX mpz_probab_prime_p wk ->
  work_on ULONG_MAX mpz_probab_prime_p wk = Done (wk', msgs) ->
  work_right ULONG_MAX mpz_probab_prime_p wk' /\
  Forall (message_right ULONG_MAX mpz_probab_prime_p) msgs.
Proof.
  destruct wk as [|e|e|e r|]; cbn.
  - discriminate.
  - intros _. destruct (reached_lucas_lehmer _) eqn:Hreach.
    + intros H. injection H as <- <-. cbn.
      split; [exact Hreach|]. constructor; [exact Hreach | constructor].
    + destruct (return_value _) as [r|] eqn:Hret; [|discriminate].
      intros H. injection H as <- <-. cbn. split; [exact Hret | constructor].
  - intros _. destruct (return_value _) as [r|] eqn:Hret;
      [|destruct (lucas_lehmer_path _ _ _); discriminate].
    intros H. injection H as <- <-. cbn. split; [exact Hret | constructor].
  - intros Hr. destruct (Z.eqb_spec r 0) as [->|Hne];
      intros H; injection H as <- <-; cbn.
    + split; [exact I|]. constructor; [exact Hr | constructor].
    + split; [exact I|]. constructor; [|constructor]. exists r. split; assumption.
  - intros _ H. injection H as <- <-. cbn.
    split; [exact I|]. constructor; [exact I | constructor].
Qed.


Lemma in_role_start mem workers start :
  in_role (start_state mem workers start).
Proof.
  unfold in_role, start_state, boot. cbn.
  rewrite !length_replicate. split; [reflexivity|]. split.
  { exists AtRest. repeat split. intros data H. discriminate. }
  split.
  - intros w pos Hpos.
    change (replicate workers AtRest !! w = Some pos) in Hpos.
    apply lookup_replicate in Hpos as [-> _]. reflexivity.
  - intros w wk Hwk Hne. apply lookup_replicate in Hwk as [-> _]. contradiction.
Qed.

Lemma in_role_work s w wk wk' out :
  in_role s -> works s !! w = Some wk -> wk <> Fetching ->
  in_role {| system := system s; next := next s;
             works := <[w := wk']> (works s); output := out |}.
Proof.
  intros (Hlen & Hmain & Hcons & Hrest) Hw Hne.
  unfold in_role. cbn. rewrite length_insert.
  repeat (split; [assumption|]).
  intros w' wk'' Hw' Hne'.
  destruct (Nat.eq_dec w w') as [<-|Hdiff].
  - exact (Hrest w wk Hw Hne).
  - rewrite list_lookup_insert_ne in Hw' by assumption.
    exact (Hrest w' wk'' Hw' Hne').
Qed.

Lemma step_in_role a s s' :
  in_role s -> step ULONG_MAX mpz_probab_prime_p a s = Done s' -> in_role s'.
Proof.
  intros Hs Hstep. pose proof Hs as (Hlen & (pos0 & H0 & Hprod & Hdata) & Hcons & Hrest).
  destruct a as [|w]; cbn [step] in Hstep.
  - apply main_step_inversion in Hstep as (sys & Hmove & ->).
    apply move_inversion in Hmove as (pos & pos' & Hpos & Hthreads & Hcase).
    rewrite H0 in Hpos. injection Hpos as <-.
    unfold in_role. cbn. rewrite Hthreads, length_insert, H0.
    split; [exact Hlen|]. split.
    { exists pos'. rewrite list_lookup_insert_eq by lia. split; [reflexivity|].
      destruct pos0 as [|data| | |data]; try discriminate.
      - destruct Hcase as (_ & _ & ->). split; [reflexivity|].
        intros data H. injection H as <-. reflexivity.
      - destruct Hcase as (-> & _). split; [reflexivity | intros ? H; discriminate].
      - destruct Hcase as (-> & _). split; [reflexivity | intros ? H; discriminate]. }
    split.
    + intros w pos Hw. rewrite list_lookup_insert_ne in Hw by lia.
      exact (Hcons w pos Hw).
    + intros w wk Hw Hne. rewrite list_lookup_insert_ne by lia.
      exact (Hrest w wk Hw Hne).
  - apply worker_step_inversion in Hstep
      as [(Hw & sys & Hmove & ->)|(wk & wk' & msgs & Hw & Hne & _ & ->)];
      [|exact (in_role_work s w wk wk' _ Hs Hw Hne)].
    apply move_inversion in Hmove as (pos & pos' & Hpos & Hthreads & Hcase).
    pose proof (Hcons w pos Hpos) as Hc.
    assert (Hlt : (S w < length (threads (system s)))%nat)
      by (apply (lookup_lt_Some _ _ _ Hpos)).
    unfold in_role. cbn. rewrite Hthreads, length_insert, Hpos.
    assert (Hpos' : consuming pos' = true).
    { destruct pos as [|data| | |data]; try discriminate.
      - destruct Hcase as (_ & _ & ->). reflexivity.
      - destruct Hcase as (data & -> & _). reflexivity.
      - destruct Hcase as (-> & _). reflexivity. }
    split.
    { destruct pos as [|data| | |data]; try rewrite length_insert; exact Hlen. }
    split.
    { exists pos0. rewrite list_lookup_insert_ne by lia.
      repeat split; assumption. }
    split.
    + intros w' pos'' Hw'. destruct (Nat.eq_dec w w') as [<-|Hdiff].
      * rewrite list_lookup_insert_eq in Hw' by lia. injection Hw' as <-. exact Hpos'.
      * rewrite list_lookup_insert_ne in Hw' by lia. exact (Hcons w' pos'' Hw').
    + intros w' wk Hw' Hne. destruct (Nat.eq_dec w w') as [<-|Hdiff].
      * rewrite list_lookup_insert_eq by lia.
        destruct pos as [|data| | |data]; try discriminate.
        -- rewrite Hw in Hw'. injection Hw' as <-. contradiction.
        -- rewrite Hw in Hw'. injection Hw' as <-. contradiction.
        -- destruct Hcase as (-> & _). reflexivity.
      * rewrite list_lookup_insert_ne by lia.
        apply (Hrest w' wk); [|exact Hne].
        destruct pos as [|data| | |data]; try exact Hw'.
        rewrite list_lookup_insert_ne in Hw' by assumption. exact Hw'.
Qed.

Lemma exponents_from_S start n :
  exponents_from ULONG_MAX start (S n)
  = exponents_from ULONG_MAX start n
      ++ [{| p := wrap ULONG_MAX (start + Z.of_nat n) |}].
Proof. unfold exponents_from. rewrite seq_S, map_app. reflexivity. Qed.



Lemma wrap_next x : wrap ULONG_MAX (wrap ULONG_MAX x + 1) = wrap ULONG_MAX (x + 1).
Proof. unfold wrap. apply Zplus_mod_idemp_l. Qed.

Lemma in_order_start mem workers start :
  0 <= start <= ULONG_MAX ->
  in_order ULONG_MAX start (start_state mem workers start).
Proof.
  intros Hstart. unfold in_order, start_state, boot. cbn.
  split; [reflexivity|]. rewrite Z.add_0_r, Z.sub_0_r.
  symmetry. apply wrap_small. exact Hstart.
Qed.

Lemma step_in_order start a s s' :
  in_role s -> in_order ULONG_MAX start s ->
  step ULONG_MAX mpz_probab_prime_p a s = Done s' ->
  in_order ULONG_MAX start s'.
Proof.
  intros (Hlen & (pos0 & H0 & Hprod & Hdata) & Hcons & Hrest) [Hstored Hnext] Hstep.
  rewrite H0 in Hnext.
  destruct a as [|w]; cbn [step] in Hstep.
  - apply main_step_inversion in Hstep as (sys & Hmove & ->).
    apply move_inversion in Hmove as (pos & pos' & Hpos & Hthreads & Hcase).
    rewrite H0 in Hpos. injection Hpos as <-.
    assert (Hlt : (0 < length (threads (system s)))%nat)
      by (apply (lookup_lt_Some _ _ _ H0)).
    unfold in_order. cbn. rewrite Hthreads, H0, list_lookup_insert_eq by lia.
    destruct pos0 as [|data| | |data]; try discriminate.
    + destruct Hcase as (-> & _ & ->). split; [exact Hstored | exact Hnext].
    + destruct Hcase as (-> & -> & _). rewrite length_app. cbn [length].
      rewrite Nat.add_1_r, exponents_from_S, <- Hstored.
      rewrite (Hdata data eq_refl), Hnext.
      split; [rewrite Z.sub_0_r; reflexivity | f_equal; lia].
    + destruct Hcase as (-> & -> & _). split; [exact Hstored|].
      rewrite Hnext, wrap_next. f_equal. lia.
  - apply worker_step_inversion in Hstep
      as [(Hw & sys & Hmove & ->)|(wk & wk' & msgs & Hw & Hne & _ & ->)].
    + apply move_inversion in Hmove as (pos & pos' & Hpos & Hthreads & Hcase).
      pose proof (Hcons w pos Hpos) as Hc.
      unfold in_order. cbn. rewrite Hthreads, list_lookup_insert_ne, H0 by lia.
      assert (Hsame : stored sys = stored (system s)).
      { destruct pos as [|data| | |data]; try discriminate.
        - apply Hcase.
        - destruct Hcase as (data & _ & Hst & _). exact Hst.
        - apply Hcase. }
      rewrite Hsame. split; [exact Hstored | exact Hnext].
    + unfold in_order. cbn. rewrite H0. split; [exact Hstored | exact Hnext].
Qed.

Lemma accounted_start mem workers start :
  accounted (start_state mem workers start).
Proof.
  unfold accounted, start_state, boot. cbn.
  assert (Hw : omap held_by (replicate workers Fetching) = []).
  { induction workers as [|n IH]; [reflexivity | exact IH]. }
  assert (Ht : forall n, omap carried_by (replicate n AtRest) = []).
  { induction n as [|n IH]; [reflexivity | exact IH]. }
  change (omap held_by (replicate workers Fetching)
          ++ omap carried_by (replicate (S workers) AtRest) ≡ₚ []).
  rewrite Hw, Ht. reflexivity.
Qed.

Lemma work_on_accounted (works : list Work) w wk wk' msgs :
  works !! w = Some wk ->
  work_on ULONG_MAX mpz_probab_prime_p wk = Done (wk', msgs) ->
  omap verdict_of msgs ++ omap held_by (<[w := wk']> works)
  ≡ₚ omap held_by works.
Proof.
  intros Hw Hwork.
  apply (Permutation_app_inv_l (option_list (held_by wk'))).
  rewrite <- (omap_insert held_by _ _ _ wk' Hw).
  rewrite <- (work_on_held _ _ _ Hwork), !app_assoc.
  apply Permutation_app_tail, Permutation_app_comm.
Qed.

Lemma step_accounted a s s' :
  in_role s -> accounted s ->
  step ULONG_MAX mpz_probab_prime_p a s = Done s' -> accounted s'.
Proof.
  intros (Hlen & (pos0 & H0 & Hprod & Hdata) & Hcons & Hrest) Hacc Hstep.
  unfold accounted in *.
  destruct a as [|w]; cbn [step] in Hstep.
  - apply main_step_inversion in Hstep as (sys & Hmove & ->).
    apply move_inversion in Hmove as (pos & pos' & Hpos & Hthreads & Hcase).
    rewrite H0 in Hpos. injection Hpos as <-. cbn. rewrite Hthreads.
    assert (Hloaded : loaded sys = loaded (system s) /\
                      carried_by pos0 = None /\ carried_by pos' = None).
    { destruct pos0 as [|data| | |data]; try discriminate.
      - destruct Hcase as (_ & Hl & ->). repeat split. exact Hl.
      - destruct Hcase as (-> & _ & Hl). repeat split. exact Hl.
      - destruct Hcase as (-> & _ & Hl). repeat split. exact Hl. }
    destruct Hloaded as (-> & Hc0 & Hc').
    rewrite (omap_insert_none carried_by _ _ _ _ H0 Hc0 Hc'). exact Hacc.
  - apply worker_step_inversion in Hstep
      as [(Hw & sys & Hmove & ->)|(wk & wk' & msgs & Hw & Hne & Hwork & ->)].
    + apply move_inversion in Hmove as (pos & pos' & Hpos & Hthreads & Hcase).
      pose proof (Hcons w pos Hpos) as Hc. cbn. rewrite Hthreads, Hpos.
      pose proof (omap_insert carried_by _ _ _ pos' Hpos) as Hins.
      destruct pos as [|data| | |data]; try discriminate.
      * destruct Hcase as (_ & -> & ->). cbn in Hins. rewrite Hins. exact Hacc.
      * destruct Hcase as (data & -> & _ & ->). cbn in Hins.
        rewrite Hins, map_app. cbn [map].
        rewrite <- !Permutation_middle, Hacc, app_nil_r. reflexivity.
      * destruct Hcase as (-> & _ & ->). cbn in Hins.
        pose proof (omap_insert held_by _ _ _ (Testing (p data)) Hw) as Hheld.
        cbn in Hheld. rewrite Hheld, <- Hacc, <- Hins.
        rewrite <- app_comm_cons, <- !Permutation_middle. reflexivity.
    + cbn. rewrite omap_app, <- Hacc, <- (app_assoc (omap verdict_of (output s))).
      apply Permutation_app_head. rewrite app_assoc.
      apply Permutation_app_tail. exact (work_on_accounted _ _ _ _ _ Hw Hwork).
Qed.

Lemma truthful_start mem workers start :
  truthful ULONG_MAX mpz_probab_prime_p (start_state mem workers start).
Proof.
  split; cbn; [constructor|].
  apply Forall_forall. intros wk Hwk.
  apply elem_of_replicate in Hwk as [-> _]. exact I.
Qed.

Lemma step_truthful a s s' :
  truthful ULONG_MAX mpz_probab_prime_p s ->
  step ULONG_MAX mpz_probab_prime_p a s = Done s' ->
  truthful ULONG_MAX mpz_probab_prime_p s'.
Proof.
  intros [Hout Hworks] Hstep.
  destruct a as [|w]; cbn [step] in Hstep.
  - apply main_step_inversion in Hstep as (sys & _ & ->).
    split; assumption.
  - apply worker_step_inversion in Hstep
      as [(Hw & sys & _ & ->)|(wk & wk' & msgs & Hw & _ & Hwork & ->)].
    + split; cbn; [exact Hout|].
      destruct (threads (system s) !! S w) as [[|data| | |data]|]; try exact Hworks.
      apply Forall_insert; [exact Hworks | exact I].
    + pose proof (proj1 (Forall_lookup _ _) Hworks w wk Hw) as Hwk.
      destruct (work_on_right _ _ _ Hwk Hwork) as [Hwk' Hmsgs].
      split; cbn.
      * apply Forall_app. split; assumption.
      * apply Forall_insert; assumption.
Qed.

Lemma balanced_start mem workers start :
  length mem = 100%nat ->
  balanced 100 (system (start_state mem workers start)).
Proof. intros Hmem. apply balanced_boot; [lia | rewrite Hmem; reflexivity]. Qed.

Lemma step_balanced a s s' :
  balanced 100 (system s) ->
  step ULONG_MAX mpz_probab_prime_p a s = Done s' ->
  balanced 100 (system s').
Proof.
  intros Hb Hstep. destruct a as [|w]; cbn [step] in Hstep.
  - apply main_step_inversion in Hstep as (sys & Hmove & ->).
    exact (move_balanced _ _ _ _ _ Hb Hmove).
  - apply worker_step_inversion in Hstep
      as [(_ & sys & Hmove & ->)|(wk & wk' & msgs & _ & _ & _ & ->)].
    + exact (move_balanced _ _ _ _ _ Hb Hmove).
    + exact Hb.
Qed.


Lemma consistent_start mem workers start :
  0 <= start <= ULONG_MAX -> length mem = 100%nat ->
  consistent ULONG_MAX mpz_probab_prime_p start (start_state mem workers start).
Proof.
  intros Hstart Hmem.
  split; [apply in_role_start|].
  split; [apply in_order_start; exact Hstart|].
  split; [apply accounted_start|].
  split; [apply truthful_start | apply balanced_start; exact Hmem].
Qed.

Lemma steps_consistent start sched : forall s s',
  consistent ULONG_MAX mpz_probab_prime_p start s ->
  steps ULONG_MAX mpz_probab_prime_p sched s = Done s' ->
  consistent ULONG_MAX mpz_probab_prime_p start s'.
Proof.
  induction sched as [|a sched IH]; intros s s' Hs Hsteps.
  - cbn in Hsteps. injection Hsteps as <-. exact Hs.
  - cbn [steps] in Hsteps.
    destruct (step ULONG_MAX mpz_probab_prime_p a s) as [s1| |] eqn:Hstep;
      try discriminate.
    cbn in Hsteps. apply (IH s1 s'); [|exact Hsteps].
    destruct Hs as (Hrole & Horder & Hacc & Htrue & Hbal).
    split; [exact (step_in_role _ _ _ Hrole Hstep)|].
    split; [exact (step_in_order _ _ _ _ Hrole Horder Hstep)|].
    split; [exact (step_accounted _ _ _ Hrole Hacc Hstep)|].
    split; [exact (step_truthful _ _ _ Htrue Hstep)|].
    exact (step_balanced _ _ _ Hbal Hstep).
Qed.


End PoolFacts.






Lemma steps_truthful ULONG_MAX mpz_probab_prime_p sched : forall s s',
  truthful ULONG_MAX mpz_probab_prime_p s ->
  steps ULONG_MAX mpz_probab_prime_p sched s = Done s' ->
  truthful ULONG_MAX mpz_probab_prime_p s'.
Proof.
  induction sched as [|a sched IH]; intros s s' Hs Hsteps.
  - cbn in Hsteps. injection Hsteps as <-. exact Hs.
  - cbn [steps] in Hsteps.
    destruct (step ULONG_MAX mpz_probab_prime_p a s) as [s1| |] eqn:Hstep;
      try discriminate.
    cbn in Hsteps.
    exact (IH s1 s' (step_truthful _ _ _ _ _ Hs Hstep) Hsteps).
Qed.

(** X17. Every verdict printed before the program runs into undefined
    behaviour is true, whatever the interleaving, for a primality test that
    never rejects a prime: a line 'Discovered Mersenne Prime!! M e' is
    there for [e = 2] only, and [M_2] is prime; a line '-- e is not
    prime.' with [2 e <= ULONG_MAX] is there only if [M_e] is not prime. *)
Theorem X17_printed_verdicts_are_true ULONG_MAX mpz_probab_prime_p mem workers start sched s :
  (forall n reps, Z.prime n -> mpz_probab_prime_p n reps <> 0) ->
  steps ULONG_MAX mpz_probab_prime_p sched (start_state mem workers start) = Done s ->
  (forall e, In (Discovered e) (output s) -> e = 2 /\ Z.prime (mersenne e)) /\
  (forall e, In (NotPrime e) (output s) -> 2 * e <= ULONG_MAX ->
             ~ Z.prime (mersenne e)).
Proof.
  intros Hpp Hsteps.
  destruct (steps_truthful _ _ _ _ _
              (truthful_start ULONG_MAX mpz_probab_prime_p mem workers start)
              Hsteps) as [Hout _].
  rewrite List.Forall_forall in Hout.
  split.
  - intros e He. destruct (Hout _ He) as (r & Hret & Hr).
    rewrite (lucas_lehmer_nonzero _ _ _ _ Hret Hr).
    split; [reflexivity | prime_by_trial_division].
  - intros e He Hfit.
    exact (lucas_lehmer_zero_sound _ _ _ Hpp Hfit (Hout _ He)).
Qed.

Lemma X17_printed_verdicts_are_true_witness :
  let d := fun n => {| p := n |} in
  let sched := [Main; Main; Main; Main; Main; Main;
                Main; Main; Main; Main; Main; Main;
                Worker 0; Worker 0; Worker 0; Worker 1; Worker 1; Worker 1;
                Worker 0; Worker 1; Worker 1; Worker 0; Worker 1;
                Worker 0; Worker 0; Worker 0; Worker 0;
                Worker 1; Worker 1; Worker 1] in
  exists s,
    steps (2 ^ 64 - 1) trial_probab_prime_p sched
      (start_state (replicate 100 (d 0)) 2 1) = Done s /\
    output s = [Discovered 2; NotPrime 1; Remember; Required 3] /\
    works s = [Iterating 3; Testing 4] /\
    Z.prime (mersenne 2) /\ ~ Z.prime (mersenne 1).
Proof.
  intros d sched. eexists.
  split; [vm_compute; reflexivity|].
  match goal with
  | |- output ?s = _ /\ _ =>
      pose proof (X17_printed_verdicts_are_true (2 ^ 64 - 1) trial_probab_prime_p
                    (replicate 100 (d 0)) 2 1 sched s) as H;
      assert (E : steps (2 ^ 64 - 1) trial_probab_prime_p sched
                    (start_state (replicate 100 (d 0)) 2 1) = Done s)
        by (vm_compute; reflexivity)
  end.
  destruct (H trial_probab_prime_p_complete E) as (Hd & Hn).
  split; [reflexivity|]. split; [reflexivity|].
  split.
  - apply (Hd 2). cbn. tauto.
  - apply (Hn 1); [cbn; tauto | vm_compute; discriminate].
Defined.



Lemma all_or_one {A : Type} (P : A -> bool) (l : list A) :
  (forall i x, l !! i = Some x -> P x = true) \/
  (exists i x, l !! i = Some x /\ P x = false).
Proof.
  induction l as [|y l [Hall|(i & x & Hi & Hx)]].
  - left. intros i x Hi. discriminate.
  - destruct (P y) eqn:Hy.
    + left. intros [|i] x Hi; cbn in Hi; [injection Hi as <-; exact Hy|].
      exact (Hall i x Hi).
    + right. exists 0%nat, y. split; [reflexivity | exact Hy].
  - right. exists (S i), x. split; assumption.
Qed.

(** X19. [main] and the workers do not bring one another to a halt: in
    every state that they reach without undefined behaviour, whatever the
    interleaving, [main] or a worker has a step to take, unless every
    worker is inside a call of [lucas_lehmer] that has no value to return
    (its next step divides by zero at line 107 or uses the cleared [t] at
    line 125, or the call does not end). *)
Theorem X19_pool_keeps_going ULONG_MAX mpz_probab_prime_p mem workers start sched s :
  0 <= start <= ULONG_MAX -> length mem = 100%nat ->
  steps ULONG_MAX mpz_probab_prime_p sched (start_state mem workers start) = Done s ->
  (exists a s', step ULONG_MAX mpz_probab_prime_p a s = Done s') \/
  (forall w wk, works s !! w = Some wk ->
     exists e, (wk = Testing e \/ wk = Iterating e) /\
               return_value (lucas_lehmer_path ULONG_MAX mpz_probab_prime_p e) = None).
Proof.
  intros Hstart Hmem Hsteps.
  pose proof (steps_consistent _ _ _ _ _ _
    (consistent_start ULONG_MAX mpz_probab_prime_p mem workers _ Hstart Hmem) Hsteps)
    as ((Hlen & (pos0 & H0 & Hprod & _) & Hcons & Hrest) & _ & _ & _ & Hbal).
  pose proof Hbal as (Hwf & He & Hf & Hempty & Hfull & _).
  assert (Hmid : forall w pos, threads (system s) !! S w = Some pos -> pos <> AtRest ->
            exists s', step ULONG_MAX mpz_probab_prime_p (Worker w) s = Done s').
  { intros w pos Hpos Hne.
    assert (Hw : works s !! w = Some Fetching).
    { destruct (lookup_lt_is_Some_2 (works s) w) as [wk Hwk].
      - apply lookup_lt_Some in Hpos. lia.
      - destruct wk as [|e|e|e r|]; [exact Hwk|..];
          rewrite (Hrest w _ Hwk) in Hpos by discriminate;
          injection Hpos as <-; contradiction. }
    pose proof (Hcons w pos Hpos) as Hc.
    cbn [step]. unfold worker_step. rewrite Hw. unfold move. rewrite Hpos.
    destruct pos as [|data| | |data]; try discriminate; [contradiction| |].
    - pose proof (value_at_67 100 _ _ Hbal Hpos) as Hsome.
      destruct (dequeue_locked_spec 100 _ Hwf Hsome) as (d & q' & -> & _).
      eexists. reflexivity.
    - eexists. reflexivity. }
  destruct pos0 as [|data| | |data]; try discriminate.
  - destruct (Z_lt_le_dec 0 (sem_empty (queue (system s)))) as [Hroom|Hnone].
    { left. exists Main. cbn [step]. unfold main_step, move. rewrite H0.
      unfold enqueue_wait, sem_wait.
      destruct (Z.ltb_spec 0 (sem_empty (queue (system s)))); [|lia].
      eexists. reflexivity. }
    destruct (rest_or_busy (threads (system s))) as [(i & pos & Hi & Hpos)|Hallrest].
    { destruct i as [|w].
      - rewrite H0 in Hi. injection Hi as <-. contradiction.
      - left. exists (Worker w). exact (Hmid w pos Hi Hpos). }
    rewrite !Hallrest in Hempty, Hfull by reflexivity.
    destruct (all_or_one
                (fun wk => match wk with
                           | Fetching => false
                           | _ => match work_on ULONG_MAX mpz_probab_prime_p wk with
                                  | Done _ => false
                                  | _ => true
                                  end
                           end) (works s)) as [Hall|(w & wk & Hw & Hgo)].
    + right. intros w wk Hw. specialize (Hall w wk Hw).
      destruct wk as [|e|e|e r|]; try discriminate.
      * exists e. split; [left; reflexivity|]. cbn in Hall.
        destruct (reached_lucas_lehmer _); [discriminate|].
        destruct (return_value _); [discriminate | reflexivity].
      * exists e. split; [right; reflexivity|]. cbn in Hall.
        destruct (return_value _); [discriminate | reflexivity].
      * cbn in Hall. destruct (r =? 0); discriminate.
    + left. exists (Worker w). cbn [step]. unfold worker_step. rewrite Hw.
      destruct wk as [|e|e|e r|].
      * assert (Hpos : threads (system s) !! S w = Some AtRest).
        { destruct (lookup_lt_is_Some_2 (threads (system s)) (S w)) as [pos Hpos].
          - apply lookup_lt_Some in Hw. lia.
          - destruct pos as [|d| | |d]; [exact Hpos|..]; exfalso.
            + pose proof (tally_lookup at57 _ _ _ Hpos eq_refl) as H1.
              rewrite Hallrest in H1 by reflexivity. lia.
            + pose proof (tally_lookup at62 _ _ _ Hpos eq_refl) as H1.
              rewrite Hallrest in H1 by reflexivity. lia.
            + pose proof (tally_lookup at67 _ _ _ Hpos eq_refl) as H1.
              rewrite Hallrest in H1 by reflexivity. lia.
            + pose proof (tally_lookup at72 _ _ _ Hpos eq_refl) as H1.
              rewrite Hallrest in H1 by reflexivity. lia. }
        unfold move. rewrite Hpos. unfold dequeue_wait, sem_wait.
        destruct (Z.ltb_spec 0 (sem_full (queue (system s)))); [|lia].
        eexists. reflexivity.
      * destruct (work_on _ _ (Testing e)) as [[wk' msgs]| |]; try discriminate.
        eexists. reflexivity.
      * destruct (work_on _ _ (Iterating e)) as [[wk' msgs]| |]; try discriminate.
        eexists. reflexivity.
      * destruct (work_on _ _ (Reporting e r)) as [[wk' msgs]| |]; try discriminate.
        eexists. reflexivity.
      * destruct (work_on _ _ Reminding) as [[wk' msgs]| |]; try discriminate.
        eexists. reflexivity.
  - left. exists Main. cbn [step]. unfold main_step, move. rewrite H0.
    pose proof (room_at_57 100 _ _ _ Hbal H0) as Hroom.
    destruct (enqueue_locked_spec 100 _ data Hwf Hroom) as (q' & -> & _).
    eexists. reflexivity.
  - left. exists Main. cbn [step]. unfold main_step, move. rewrite H0.
    eexists. reflexivity.
Qed.

Lemma X19_pool_keeps_going_witness :
  let d := fun n => {| p := n |} in
  let sched := [Main; Main; Main; Worker 0; Worker 0; Worker 0; Worker 0;
                Main; Main] in
  exists s,
    steps (2 ^ 64 - 1) trial_probab_prime_p sched
      (start_state (replicate 100 (d 0)) 1 7) = Done s /\
    works s = [Iterating 7] /\
    step (2 ^ 64 - 1) trial_probab_prime_p (Worker 0) s = Undefined /\
    ((exists a s', step (2 ^ 64 - 1) trial_probab_prime_p a s = Done s') \/
     (forall w wk, works s !! w = Some wk ->
        exists e, (wk = Testing e \/ wk = Iterating e) /\
                  return_value (lucas_lehmer_path (2 ^ 64 - 1) trial_probab_prime_p e)
                  = None)).
Proof.
  intros d sched. eexists.
  split; [vm_compute; reflexivity|].
  split; [reflexivity|].
  split; [vm_compute; reflexivity|].
  refine (X19_pool_keeps_going (2 ^ 64 - 1) trial_probab_prime_p
            (replicate 100 (d 0)) 1 7 sched _ _ eq_refl _).
  - lia.
  - vm_compute. reflexivity.
Defined.
